(** * logh: leveled logging with two-file rotation

    A shallow embedding of [logh.go] (package [logh]) and the properties of
    its per-logger state machine: level filtering, the amortised size check,
    the two-file rotation protocol, construction and shutdown.

    Layout of the development:
    - [Go]       : the few pieces of the Go runtime the package relies on
                   (machine integers, [strconv.Itoa], error values, panics);
    - [OS]       : the part of package [os] that the logger calls
                   ([Stat], [Remove], [OpenFile], [Close], [Write]) over an
                   explicit world of directory entries, inodes and handles;
    - [Logh]     : the package itself, function by function;
    - the vocabulary of the statements and a concrete setting;
    - the lemmas and theorems, one group per property. *)

From Stdlib Require Import ZArith Lia DecimalString.
From stdpp Require Import base option list gmap strings.

Local Open Scope Z_scope.

(* ===================================================================== *)
(** ** Go runtime                                                         *)
(* ===================================================================== *)

Module Go.

(** [int] and [int64] are 64-bit two's complement on every platform the
    package is built for; arithmetic wraps around. *)
Definition min_int : Z := - 2 ^ 63.
Definition max_int : Z := 2 ^ 63 - 1.

Definition wrap64 (z : Z) : Z := (z + 2 ^ 63) mod 2 ^ 64 - 2 ^ 63.

Definition in_int (z : Z) : Prop := min_int <= z <= max_int.

(** [len(x)] of a slice or a string, as an [int]. *)
Definition len {A} (l : list A) : Z := Z.of_nat (length l).
Definition strlen (s : string) : Z := Z.of_nat (String.length s).

(** [strconv.Itoa] and the [%d] verb: decimal, with a leading minus. *)
Definition Itoa (z : Z) : string := NilZero.string_of_int (Z.to_int z).

(** [s[i]] for an [int] index: out of range (negative included) panics,
    which the callers see as [None]. *)
Definition index {A} (s : list A) (i : Z) : option A :=
  if i <? 0 then None else s !! Z.to_nat i.

(** The outcome of a call: it returns, or the goroutine panics. *)
Inductive outcome (A : Type) : Type :=
| Done (a : A)
| Panic (msg : string).
Arguments Done {A} a.
Arguments Panic {A} msg.

(** Error values.  [PathError] is what package [os] returns; [Errorf_d] and
    [Errorf_v] are errors built by [fmt.Errorf] from a format and its
    integer ([%d]) or error ([%v]) arguments. *)
Inductive Errno : Type := ENOENT | EACCES | EINVAL | ErrClosed.

#[warnings="-register-all"]
Inductive error : Type :=
| PathError (op path : string) (e : Errno)
| Errorf_d (format : string) (args : list Z)
| Errorf_v (format : string) (args : list (option error)).

(** Number of newline characters of a text: the number of lines it ends. *)
Definition newline : Ascii.ascii := Ascii.ascii_of_nat 10.

Fixpoint lines_in (s : string) : nat :=
  match s with
  | EmptyString => 0%nat
  | String c s' => ((if decide (c = newline) then 1 else 0) + lines_in s')%nat
  end.


End Go.

Import Go.

(* ===================================================================== *)
(** ** Operating system                                                   *)
(* ===================================================================== *)

Module OS.

(** An open file description: the inode it writes to, and whether
    [Close] has been called on it. *)
Record fdesc : Type := Fdesc { fd_node : nat; fd_closed : bool }.

(** The world outside the process.
    - [w_dir]    : directory entries, path to inode number;
    - [w_nodes]  : inode table, the bytes of each inode.  Inode 0 is the
                   terminal behind standard output;
    - [w_fds]    : the [*os.File] values of the process.  Handle 0 is
                   [os.Stdout];
    - [w_denied] : paths on which the process lacks permission: creating,
                   opening for writing and removing them fails. *)
Record World : Type := mkWorld {
  w_dir : gmap string nat;
  w_nodes : list string;
  w_fds : list fdesc;
  w_denied : gset string
}.

Definition File : Type := nat.

Definition Stdout : File := 0%nat.
Definition stdout_node : nat := 0%nat.

(** The inode a path names, and the content found there. *)
Definition node_at (w : World) (p : string) : option nat :=
  match w_dir w !! p with
  | Some i => if decide (i < length (w_nodes w))%nat then Some i else None
  | None => None
  end.

Definition file_at (w : World) (p : string) : option string :=
  match node_at w p with
  | Some i => w_nodes w !! i
  | None => None
  end.

(** The inode behind an open handle. *)
Definition open_node (w : World) (f : File) : option nat :=
  match w_fds w !! f with
  | Some d => if fd_closed d then None else Some (fd_node d)
  | None => None
  end.

(** [os.Stat(p)], reduced to what the caller reads: [fi.Size()]. *)
Definition Stat (w : World) (p : string) : error + Z :=
  match file_at w p with
  | Some c => inr (strlen c)
  | None => inl (PathError "stat" p ENOENT)
  end.

(** [os.Remove(p)]: unlinks the name; the inode stays for open handles. *)
Definition Remove (w : World) (p : string) : World * option error :=
  match file_at w p with
  | None => (w, Some (PathError "remove" p ENOENT))
  | Some _ =>
      if decide (p ∈ w_denied w) then (w, Some (PathError "remove" p EACCES))
      else (mkWorld (delete p (w_dir w)) (w_nodes w) (w_fds w) (w_denied w), None)
  end.

Definition IsNotExist (e : error) : bool :=
  match e with
  | PathError _ _ ENOENT => true
  | _ => false
  end.

(** [os.OpenFile(p, O_APPEND|O_CREATE|O_WRONLY, 0644)]: an existing file
    is opened as it is, a missing one is created empty. *)
Definition OpenFile (w : World) (p : string) : World * (error + File) :=
  if decide (p ∈ w_denied w) then (w, inl (PathError "open" p EACCES))
  else
    match node_at w p with
    | Some i =>
        (mkWorld (w_dir w) (w_nodes w) (w_fds w ++ [Fdesc i false]) (w_denied w),
         inr (length (w_fds w)))
    | None =>
        let i' := length (w_nodes w) in
        (mkWorld (<[p := i']> (w_dir w)) (w_nodes w ++ [""])
                 (w_fds w ++ [Fdesc i' false]) (w_denied w),
         inr (length (w_fds w)))
    end.

(** [f.Close()]: a second close reports [ErrClosed]. *)
Definition Close (w : World) (f : File) : World * option error :=
  match w_fds w !! f with
  | None => (w, Some (PathError "close" "" EINVAL))
  | Some d =>
      if fd_closed d then (w, Some (PathError "close" "" ErrClosed))
      else (mkWorld (w_dir w) (w_nodes w)
                    (<[f := Fdesc (fd_node d) true]> (w_fds w)) (w_denied w),
            None)
  end.

(** [f.Write(b)] on a handle opened with [O_APPEND]. *)
Definition Write (w : World) (f : File) (b : string) : World * option error :=
  match open_node w f with
  | None => (w, Some (PathError "write" "" ErrClosed))
  | Some i =>
      match w_nodes w !! i with
      | None => (w, Some (PathError "write" "" EINVAL))
      | Some c =>
          (mkWorld (w_dir w) (<[i := c +:+ b]> (w_nodes w)) (w_fds w) (w_denied w),
           None)
      end
  end.

(** [os.MkdirAll(dir, 0755)]: the directory tree is not part of the world;
    creation fails exactly on a directory the process may not write. *)
Definition MkdirAll (w : World) (dir : string) : World * option error :=
  if decide (dir ∈ w_denied w) then (w, Some (PathError "mkdir" dir EACCES))
  else (w, None).

(** [fmt.Printf] writes to [os.Stdout] and drops the error. *)
Definition fmt_Printf (w : World) (text : string) : World :=
  fst (Write w Stdout text).

End OS.

Import OS.

(* ===================================================================== *)
(** ** Package logh                                                       *)
(* ===================================================================== *)

Module Logh.

(** What the package takes from its collaborators: the rendering of a
    format and its arguments ([fmt.Sprintf]), the date, time and source
    position that package [log] puts in front of a message for a given flag
    word, and [filepath.Dir]. *)
Class Collaborators : Type := {
  any : Type;
  Sprintf : string → list any → string;
  formatHeader : Z → string;
  filepath_Dir : string → string
}.

(** [LoghLevel] and the constants for use with [DefaultLevels]. *)
Definition LoghLevel : Type := Z.

Definition Debug : LoghLevel := 0.
Definition Info : LoghLevel := 1.
Definition Warning : LoghLevel := 2.
Definition Audit : LoghLevel := 3.
Definition Error : LoghLevel := 4.

(** Flag bits of package [log]. *)
Definition Ldate : Z := Z.shiftl 1 0.
Definition Ltime : Z := Z.shiftl 1 1.
Definition Lmicroseconds : Z := Z.shiftl 1 2.
Definition Llongfile : Z := Z.shiftl 1 3.
Definition Lshortfile : Z := Z.shiftl 1 4.
Definition LUTC : Z := Z.shiftl 1 5.
Definition Lmsgprefix : Z := Z.shiftl 1 6.

Definition DefaultFlags : Z :=
  Z.lor (Z.lor (Z.lor (Z.lor LUTC Ltime) Lmicroseconds) Ldate) Lshortfile.

Definition maxRotations : Z := 2.

Definition DefaultLevels : list string :=
  ["debug"; "info"; "warning"; "audit"; "error"].

Definition defaultOutput : File := Stdout.

(** A [*log.Logger]: its writer, prefix and flags. *)
Record log_Logger : Type := mkLog {
  lg_out : option File;
  lg_prefix : string;
  lg_flag : Z
}.

Record Logger : Type := mkLogger {
  checkLogSize : Z;
  flags : Z;
  level : LoghLevel;
  levels : list string;
  levelMaxWidth : Z;
  loggers : list (option log_Logger);
  file : option File;
  filePath : string;
  maxLogSize : Z;
  rotation : Z;
  writesSinceCheckRotate : Z
}.

(** Assignments to the fields that the package mutates. *)
Definition set_levelMaxWidth (l : Logger) (v : Z) : Logger :=
  mkLogger (checkLogSize l) (flags l) (level l) (levels l) v (loggers l)
           (file l) (filePath l) (maxLogSize l) (rotation l)
           (writesSinceCheckRotate l).

Definition set_loggers (l : Logger) (v : list (option log_Logger)) : Logger :=
  mkLogger (checkLogSize l) (flags l) (level l) (levels l) (levelMaxWidth l) v
           (file l) (filePath l) (maxLogSize l) (rotation l)
           (writesSinceCheckRotate l).

Definition set_file (l : Logger) (v : option File) : Logger :=
  mkLogger (checkLogSize l) (flags l) (level l) (levels l) (levelMaxWidth l)
           (loggers l) v (filePath l) (maxLogSize l) (rotation l)
           (writesSinceCheckRotate l).

Definition set_rotation (l : Logger) (v : Z) : Logger :=
  mkLogger (checkLogSize l) (flags l) (level l) (levels l) (levelMaxWidth l)
           (loggers l) (file l) (filePath l) (maxLogSize l) v
           (writesSinceCheckRotate l).

Definition set_writesSinceCheckRotate (l : Logger) (v : Z) : Logger :=
  mkLogger (checkLogSize l) (flags l) (level l) (levels l) (levelMaxWidth l)
           (loggers l) (file l) (filePath l) (maxLogSize l) (rotation l) v.

(** [l.filePath + "." + strconv.Itoa(i)]. *)
Definition slot_path (l : Logger) (i : Z) : string :=
  filePath l +:+ "." +:+ Itoa i.

(** *** Package log: [Output] *)

Fixpoint ends_in_newline (s : string) : bool :=
  match s with
  | EmptyString => false
  | String c EmptyString => bool_decide (c = newline)
  | String _ s' => ends_in_newline s'
  end.

Definition nl : string := String newline EmptyString.

(** The bytes of one record: prefix, header, message, and a newline unless
    the message brings its own.  With [Lmsgprefix] the prefix follows the
    header. *)
Definition log_line `{Collaborators} (lg : log_Logger) (s : string) : string :=
  (if Z.testbit (lg_flag lg) 6
   then formatHeader (lg_flag lg) +:+ lg_prefix lg
   else lg_prefix lg +:+ formatHeader (lg_flag lg))
  +:+ s +:+ (if ends_in_newline s then "" else nl).

Definition log_Output `{Collaborators} (w : World) (lg : log_Logger) (s : string)
  : World * option error :=
  match lg_out lg with
  | Some f => Write w f (log_line lg s)
  | None => (w, Some (PathError "write" "" EINVAL))
  end.

(** *** Shutdown *)

(** Shutdown shuts down loggers and closes the file. *)
Definition Shutdown (w : World) (l : Logger) : World * Logger * option error :=
  let l := set_loggers l (map (λ _, None) (loggers l)) in
  match file l with
  | Some f =>
      match Close w f with
      | (w', Some err) =>
          (w', l, Some (Errorf_v "closing log file, error:%v" [Some err]))
      | (w', None) => (w', l, None)
      end
  | None => (w, l, None)
  end.

(** *** initializeLoggers *)

Definition initializeLoggers (l : Logger) : Logger :=
  set_loggers l
    (map (λ v, Some (mkLog (file l) (v +:+ ": ") (flags l))) (levels l)).

(** *** initializeRotation *)

(** The [for] loop of [initializeRotation], [todo] iterations from slot [i]
    on: [Some] is the logger at a [return] inside the loop, [None] means
    the loop ran to its end. *)
Fixpoint initializeRotation_scan (todo : nat) (i : Z) (w : World) (l : Logger)
  : option Logger :=
  match todo with
  | O => None
  | S todo' =>
      match Stat w (slot_path l i) with
      | inl _ => Some (set_rotation l i)
      | inr size =>
          if size <? maxLogSize l then Some (set_rotation l i)
          else initializeRotation_scan todo' (wrap64 (i + 1)) w l
      end
  end.

(** initializeRotation will find the first available rotation that is less
    than maxLogSize. *)
Definition initializeRotation (w : World) (l : Logger)
  : World * Logger * option error :=
  match initializeRotation_scan (Z.to_nat maxRotations) 0 w l with
  | Some l' => (w, l', None)
  | None =>
      let l := set_rotation l 0 in
      let '(w', err) := Remove w (filePath l +:+ ".0") in
      (w', l, err)
  end.

(** *** openFileAndInitialize *)

(** openFileAndInitialize opens the file and assigns loggers.  On error the
    [defaultOutput] is used for logging. *)
Definition openFileAndInitialize (w : World) (l : Logger)
  : World * Logger * option error :=
  let l := set_writesSinceCheckRotate l 0 in
  if decide (filePath l = "") then
    (w, initializeLoggers (set_file l (Some defaultOutput)), None)
  else
    let '(w, l, errors) :=
      match file l with
      | Some _ =>
          match Shutdown w l with
          | (w', l', Some err) =>
              (w', l', Some (Errorf_v "closing log file, error:%v" [Some err]))
          | (w', l', None) => (w', l', None)
          end
      | None => (w, l, None)
      end in
    let fp := slot_path l (rotation l) in
    match OpenFile w fp with
    | (w', inr f) => (w', initializeLoggers (set_file l (Some f)), errors)
    | (w', inl err) =>
        (w', initializeLoggers (set_file l (Some defaultOutput)),
         Some (Errorf_v "%v, opening log file, error:%v" [errors; Some err]))
    end.

(** *** checkSizeAndRotate *)

Definition checkSizeAndRotate (w : World) (l : Logger)
  : World * Logger * option error :=
  if decide (filePath l = "") then (w, l, None)
  else
    let l := set_writesSinceCheckRotate l 0 in
    match Stat w (slot_path l (rotation l)) with
    | inl err => (w, l, Some err)
    | inr size =>
        if size >? maxLogSize l then
          let l := set_rotation l (wrap64 (rotation l + 1)) in
          let l := if rotation l >=? maxRotations then set_rotation l 0 else l in
          match Remove w (slot_path l (rotation l)) with
          | (w', Some err) =>
              if negb (IsNotExist err) then (w', l, Some err)
              else openFileAndInitialize w' l
          | (w', None) => openFileAndInitialize w' l
          end
        else (w, l, None)
    end.

(** *** printCommon, Printf, Println *)

(** The text that [printCommon] prints for a level at or above
    [len(l.levels)]. *)
Definition range_text (level : LoghLevel) (l : Logger) : string :=
  "input level was outside range, level:" +:+ Itoa level
  +:+ ", len(levels)-1:" +:+ Itoa (len (levels l) - 1).

(** The receiver is a pointer: [None] is the nil [*Logger]. *)
Definition printCommon `{Collaborators} (w : World) (l : option Logger)
    (level : LoghLevel) (format : string) (v : list any)
  : outcome (World * option Logger) :=
  match l with
  | None => Done (w, None)
  | Some l =>
      if level >=? len (levels l) then
        Done (fmt_Printf w (range_text level l), Some l)
      else
        let written :=
          if level >=? Logh.level l then
            match index (loggers l) level with
            | None => Panic "index out of range"
            | Some None => Panic "nil pointer dereference"
            | Some (Some lg) => Done (fst (log_Output w lg (Sprintf format v)))
            end
          else Done w in
        match written with
        | Panic msg => Panic msg
        | Done w =>
            if decide (filePath l = "") then Done (w, Some l)
            else
              let l := set_writesSinceCheckRotate l
                         (wrap64 (writesSinceCheckRotate l + 1)) in
              if writesSinceCheckRotate l >=? checkLogSize l then
                let '(w', l', _) := checkSizeAndRotate w l in Done (w', Some l')
              else Done (w, Some l)
        end
  end.

(** Printf wraps the log.Printf in order to rotate the file. *)
Definition Printf `{Collaborators} (w : World) (l : option Logger)
    (level : LoghLevel) (format : string) (v : list any)
  : outcome (World * option Logger) :=
  printCommon w l level format v.

(** Println wraps the log.Println in order to rotate the file. *)
Definition Println `{Collaborators} (w : World) (l : option Logger)
    (level : LoghLevel) (v : list any)
  : outcome (World * option Logger) :=
  printCommon w l level "%s" v.

(** *** New *)

(** The loop that computes [levelMaxWidth]. *)
Definition maxWidth (levels : list string) : Z :=
  fold_left (λ acc v, if strlen v >? acc then strlen v else acc) levels 0.

(** [Map] holds the named loggers.  New adds a new logger under [name],
    after shutting down and deleting the one registered there. *)
Definition New `{Collaborators} (w : World) (Map : gmap string Logger)
    (name filePath : string) (levels : list string) (level : LoghLevel)
    (flags checkLogSize maxLogSize : Z)
  : World * gmap string Logger * option error :=
  let w :=
    match Map !! name with
    | Some old => fst (fst (Shutdown w old))
    | None => w
    end in
  let Map := delete name Map in
  let logger :=
    mkLogger checkLogSize flags level levels 0 [] None filePath maxLogSize 0 0 in
  if (level <? 0) || (level >=? len levels) then
    (w, Map,
     Some (Errorf_d "input level was outside range, level:%d, len(levels)-1:%d"
                    [level; len levels - 1]))
  else
    match MkdirAll w (filepath_Dir filePath) with
    | (w, Some err) =>
        (w, Map, Some (Errorf_v "creating log file directory, error:%v" [Some err]))
    | (w, None) =>
        match initializeRotation w logger with
        | (w, logger, Some err) => (w, Map, Some err)
        | (w, logger, None) =>
            match openFileAndInitialize w logger with
            | (w, logger, Some err) => (w, Map, Some err)
            | (w, logger, None) =>
                let logger := set_levelMaxWidth logger (maxWidth (Logh.levels logger)) in
                (w, <[name := logger]> Map, None)
            end
        end
    end.

(** *** ShutdownAll *)

(** The loop of [ShutdownAll]: [keys] is what is left of the [range] over
    [Map], [errOut] the error collected so far.  [Map[k]] is a pointer, so
    the logger that [Shutdown] has worked on is the one the map holds. *)
Fixpoint ShutdownAll_range (keys : list string) (w : World)
    (Map : gmap string Logger) (errOut : option error)
  : outcome (World * gmap string Logger * option error) :=
  match keys with
  | [] => Done (w, Map, errOut)
  | k :: rest =>
      match Map !! k with
      | None => Panic "nil pointer dereference"
      | Some l =>
          let '(w', l', err) := Shutdown w l in
          let errOut :=
            match err with
            | Some e => Some (Errorf_v "error: %v, prior errors: %v" [Some e; errOut])
            | None => errOut
            end in
          ShutdownAll_range rest w' (<[k := l']> Map) errOut
      end
  end.

(** ShutdownAll is a convenience function to shutdown all running loggers
    and clear Map.  Go does not fix the order in which [range] visits a
    map: [order] is the order of the execution at hand, some enumeration of
    the keys of [Map]. *)
Definition ShutdownAll (order : list string) (w : World) (Map : gmap string Logger)
  : outcome (World * gmap string Logger * option error) :=
  match ShutdownAll_range order w Map None with
  | Done (w', _, errOut) => Done (w', ∅, errOut)
  | Panic msg => Panic msg
  end.

End Logh.

Import Logh.

(* ===================================================================== *)
(** ** Vocabulary of the statements                                      *)
(* ===================================================================== *)

(** [grown ns ns']: the inode table [ns'] is [ns] followed by empty inodes
    only, so no byte was written between the two. *)
Definition grown (ns ns' : list string) : Prop :=
  ∃ k : nat, ns' = ns ++ replicate k "".

(** The per-level loggers are in place: one for every label, writing to the
    logger's current handle under the label's prefix.  This is the state
    [initializeLoggers] establishes and [Shutdown] destroys. *)
Definition wired (l : Logger) : Prop :=
  loggers l = map (λ v, Some (mkLog (file l) (v +:+ ": ") (flags l))) (levels l).

(** The fields fixed at construction. *)
Definition same_config (l l' : Logger) : Prop :=
  checkLogSize l' = checkLogSize l ∧ flags l' = flags l ∧ level l' = level l ∧
  levels l' = levels l ∧ filePath l' = filePath l ∧ maxLogSize l' = maxLogSize l.

(** The tail of [printCommon], from [if l.filePath == ""] on: the
    bookkeeping that every call below the label count reaches. *)
Definition rotation_trigger (w : World) (l : Logger) : World * Logger :=
  if decide (filePath l = "") then (w, l)
  else
    let l := set_writesSinceCheckRotate l (wrap64 (writesSinceCheckRotate l + 1)) in
    if writesSinceCheckRotate l >=? checkLogSize l then
      let '(w', l', _) := checkSizeAndRotate w l in (w', l')
    else (w, l).

(** The two entry points of an emit, and the message each one renders. *)
Inductive emit_call `{Collaborators} : Type :=
| by_Printf (format : string) (v : list any)
| by_Println (v : list any).

Definition run_emit `{Collaborators} (w : World) (l : option Logger)
    (sev : LoghLevel) (c : emit_call) : outcome (World * option Logger) :=
  match c with
  | by_Printf format v => Printf w l sev format v
  | by_Println v => Println w l sev v
  end.

Definition message `{Collaborators} (c : emit_call) : string :=
  match c with
  | by_Printf format v => Sprintf format v
  | by_Println v => Sprintf "%s" v
  end.

(** The world after the filter-and-write step of an emit on a wired
    logger. *)
Definition emit_world `{Collaborators} (w : World) (l : Logger)
    (sev : LoghLevel) (s : string) : World :=
  if sev >=? level l then
    match levels l !! Z.to_nat sev with
    | Some label => (log_Output w (mkLog (file l) (label +:+ ": ") (flags l)) s).1
    | None => w
    end
  else w.

(** A sequence of emits on one logger, each with its severity. *)
Fixpoint run_emits `{Collaborators} (w : World) (l : Logger)
    (calls : list (LoghLevel * emit_call)) : outcome (World * Logger) :=
  match calls with
  | [] => Done (w, l)
  | (sev, c) :: rest =>
      match run_emit w (Some l) sev c with
      | Done (w', Some l') => run_emits w' l' rest
      | Done (_, None) => Panic "logger lost"
      | Panic msg => Panic msg
      end
  end.

(** The selection rule in the words of the specification: a slot is
    available when its file does not exist or is strictly smaller than the
    maximum; the first available slot in the order 0, 1 is picked; when
    neither is available slot 0 is picked and its file is deleted. *)
Definition slot_available (w : World) (l : Logger) (i : Z) : bool :=
  match file_at w (slot_path l i) with
  | None => true
  | Some c => strlen c <? maxLogSize l
  end.

Definition both_full (w : World) (l : Logger) : bool :=
  negb (slot_available w l 0) && negb (slot_available w l 1).

Definition selected_slot (w : World) (l : Logger) : Z :=
  if slot_available w l 0 then 0
  else if slot_available w l 1 then 1
  else 0.

(** Two calls of [Shutdown] in a row on the same logger; the result is the
    result of the second call. *)
Definition Shutdown_again (w : World) (l : Logger) : World * Logger * option error :=
  let '(w1, l1, _) := Shutdown w l in Shutdown w1 l1.

(** The world in which [New] goes on after it has shut down the logger
    registered under the name, and the logger value it starts from. *)
Definition before_New (w : World) (Map : gmap string Logger) (name : string) : World :=
  match Map !! name with
  | Some old => (Shutdown w old).1.1
  | None => w
  end.

Definition New_logger (filePath : string) (levels : list string) (level : LoghLevel)
    (flags checkLogSize maxLogSize : Z) : Logger :=
  mkLogger checkLogSize flags level levels 0 [] None filePath maxLogSize 0 0.

(** The handles of the loggers registered under [order], in that order. *)
Definition handles_of (order : list string) (Map : gmap string Logger) : list File :=
  omap (λ k, Map !! k ≫= file) order.

(* ===================================================================== *)
(** ** A concrete setting                                                *)
(* ===================================================================== *)

(** Collaborators for the examples: the message is the concatenation of the
    arguments, the flag word 0 asks for no header, every path lies in the
    working directory. *)
Definition plain : Collaborators :=
  {| any := string;
     Sprintf := λ _ v, String.concat " " v;
     formatHeader := λ _, "";
     filepath_Dir := λ _, "." |}.

(** A process with standard output open on the terminal and no files. *)
Definition boot : World := mkWorld ∅ [""] [Fdesc stdout_node false] ∅.

(** A world in which [app.log.0] holds one earlier record, open on
    handle 1, and a running logger on it at threshold [Info]. *)
Definition demo_world : World :=
  mkWorld {["app.log.0" := 1%nat]} [""; "info: started" +:+ nl]
          [Fdesc stdout_node false; Fdesc 1 false] ∅.

Definition demo_logger : Logger :=
  initializeLoggers
    (mkLogger 10 0 Info DefaultLevels 7 [] (Some 1%nat) "app.log" 1000 0 0).

Definition demo_call : @emit_call plain := @by_Println plain ["disk"; "full"].

(** The logger value that [New] builds before it selects a slot. *)
Definition fresh_logger : Logger :=
  mkLogger 10 0 Info DefaultLevels 0 [] None "app.log" 1000 0 0.

(** A process that may not create or open [app.log.0]. *)
Definition locked_world : World :=
  mkWorld ∅ [""] [Fdesc stdout_node false] {["app.log.0"]}.

(** [New("app", "app.log", DefaultLevels, Info, 0, 10, 1000)] in a process
    that has just started, and the logger it registers. *)
Definition started : World * gmap string Logger * option error :=
  @New plain boot ∅ "app" "app.log" DefaultLevels Info 0 10 1000.

Definition started_world : World := started.1.1.

Definition started_logger : option Logger := started.1.2 !! "app".

(** One [Println] at each of the five default levels, in order. *)
Definition five_levels : list (LoghLevel * @emit_call plain) :=
  [(Debug, @by_Println plain ["d"]); (Info, @by_Println plain ["i"]);
   (Warning, @by_Println plain ["w"]); (Audit, @by_Println plain ["a"]);
   (Error, @by_Println plain ["e"])].

(** The rotation scenario of the package's tests: a size check at every
    call, a limit of 70 bytes, and records of 60 bytes. *)
Definition rotating : World * gmap string Logger * option error :=
  @New plain boot ∅ "t" "log.txt" DefaultLevels Debug 0 1 70.

Definition sixty : @emit_call plain :=
  @by_Println plain ["0-12345678901234567890123456789012345678901234567890"].

(** The two rotation files after [n] records. *)
Definition rotated_files (n : nat) : option (option string * option string) :=
  match rotating.1.2 !! "t" with
  | Some l =>
      match run_emits rotating.1.1 l (replicate n (Debug, sixty)) with
      | Done (w, _) => Some (file_at w "log.txt.0", file_at w "log.txt.1")
      | Panic _ => None
      end
  | None => None
  end.

(** The demo logger with a size check at every call and a limit of ten
    bytes, which [app.log.0] already exceeds. *)
Definition tight_logger : Logger :=
  initializeLoggers
    (mkLogger 1 0 Info DefaultLevels 7 [] (Some 1%nat) "app.log" 10 0 0).

(** A logger on standard output, as [New] builds it for an empty path,
    and a registry that holds it under two names. *)
Definition out_logger : Logger :=
  initializeLoggers
    (mkLogger 10 0 Debug DefaultLevels 7 [] (Some defaultOutput) "" 1000 0 0).

Definition two_out : gmap string Logger :=
  <["a" := out_logger]> {["b" := out_logger]}.

(** Changing the level of the logger "a" on standard output: a second
    [New] under the same name, as in the package's README. *)
Definition restarted : World * gmap string Logger * option error :=
  @New plain boot {["a" := out_logger]} "a" "" DefaultLevels Warning 0 10 1000.

(** A working directory that holds files [.0] and [.1] of ten bytes
    each. *)
Definition dotfiles_world : World :=
  mkWorld (<[".0" := 1%nat]> {[".1" := 2%nat]}) [""; "0123456789"; "0123456789"]
          [Fdesc stdout_node false] ∅.

(** Worlds for rotations that fail: [app.log.0] is over the limit of
    [tight_logger]; the process may not touch [app.log.1], which exists in
    the first world and is missing in the second.  [fallen_logger] is the
    logger after the fallback of the second case. *)
Definition stuck_world : World :=
  mkWorld (<["app.log.0" := 1%nat]> {["app.log.1" := 2%nat]})
          [""; "info: started" +:+ nl; "old"]
          [Fdesc stdout_node false; Fdesc 1 false] {["app.log.1"]}.

Definition locked_next_world : World :=
  mkWorld {["app.log.0" := 1%nat]} [""; "info: started" +:+ nl]
          [Fdesc stdout_node false; Fdesc 1 false] {["app.log.1"]}.

Definition fallen_logger : Logger :=
  initializeLoggers
    (mkLogger 1 0 Info DefaultLevels 7 [] (Some defaultOutput) "app.log" 10 1 0).


(** The demo logger with a size check at every third call, two calls, and
    the call that follows them. *)
Definition paced_logger : Logger :=
  initializeLoggers
    (mkLogger 3 0 Info DefaultLevels 7 [] (Some 1%nat) "app.log" 1000 0 0).

Definition two_calls : list (LoghLevel * @emit_call plain) :=
  [(Debug, @by_Println plain ["d"]); (Info, @by_Println plain ["i"])].

(* ===================================================================== *)
(** ** Facts about texts                                                  *)
(* ===================================================================== *)

Section Texts.

Lemma append_cons (x : Ascii.ascii) (a b : string) :
  String x a +:+ b = String x (a +:+ b).
Proof. reflexivity. Qed.

Lemma append_nil_l (b : string) : "" +:+ b = b.
Proof. reflexivity. Qed.



Lemma lines_in_app (a b : string) :
  lines_in (a +:+ b) = (lines_in a + lines_in b)%nat.
Proof.
  induction a as [|c a IH]; [reflexivity|].
  rewrite append_cons. simpl. rewrite IH. lia.
Qed.

Lemma lines_in_uint (d : Decimal.uint) :
  lines_in (NilEmpty.string_of_uint d) = 0%nat.
Proof. induction d; simpl; auto. Qed.

Lemma lines_in_Itoa (z : Z) : lines_in (Itoa z) = 0%nat.
Proof.
  unfold Itoa, NilZero.string_of_int, NilZero.string_of_uint.
  destruct (Z.to_int z) as [d|d]; destruct d; simpl;
    auto using lines_in_uint.
Qed.

Lemma lines_in_range_text (level : LoghLevel) (l : Logger) :
  lines_in (range_text level l) = 0%nat.
Proof.
  unfold range_text. rewrite !lines_in_app, !lines_in_Itoa. reflexivity.
Qed.








End Texts.

(* ===================================================================== *)
(** ** Facts about the operating system model                             *)
(* ===================================================================== *)

Section OSFacts.

Lemma grown_refl (ns : list string) : grown ns ns.
Proof. exists 0%nat. by rewrite app_nil_r. Qed.

Lemma grown_trans (a b c : list string) : grown a b → grown b c → grown a c.
Proof.
  intros [k ->] [k' ->]. exists (k + k')%nat.
  by rewrite <- app_assoc, replicate_add.
Qed.

Lemma grown_lookup (ns ns' : list string) (i : nat) (c : string) :
  grown ns ns' → ns !! i = Some c → ns' !! i = Some c.
Proof. intros [k ->] Hi. by apply lookup_app_l_Some. Qed.

Lemma grown_fresh (ns ns' : list string) (i : nat) (c : string) :
  grown ns ns' → ns !! i = None → ns' !! i = Some c → c = "".
Proof.
  intros [k ->] Hi Hc. apply lookup_ge_None in Hi.
  rewrite lookup_app_r in Hc by lia.
  apply lookup_replicate in Hc. tauto.
Qed.

Lemma grown_insert (ns ns' : list string) (i : nat) (c : string) :
  (i < length ns)%nat → grown ns ns' → grown (<[i := c]> ns) (<[i := c]> ns').
Proof.
  intros Hi [k ->]. exists k. by rewrite insert_app_l.
Qed.

Lemma Remove_nodes (w w' : World) (p : string) (e : option error) :
  Remove w p = (w', e) → w_nodes w' = w_nodes w ∧ w_fds w' = w_fds w.
Proof.
  unfold Remove. destruct (file_at w p); [case_decide|]; by intros [= <- <-].
Qed.

Lemma Close_nodes (w w' : World) (f : File) (e : option error) :
  Close w f = (w', e) → w_nodes w' = w_nodes w ∧ w_dir w' = w_dir w.
Proof.
  unfold Close. destruct (w_fds w !! f) as [d|]; [destruct (fd_closed d)|];
    by intros [= <- <-].
Qed.

Lemma OpenFile_grown (w w' : World) (p : string) (r : error + File) :
  OpenFile w p = (w', r) → grown (w_nodes w) (w_nodes w').
Proof.
  unfold OpenFile. case_decide; [|destruct (node_at w p)]; intros [= <- <-]; simpl.
  - apply grown_refl.
  - apply grown_refl.
  - by exists 1%nat.
Qed.

(** A write goes to the inode of the handle and to no other. *)
Lemma Write_open (w : World) (f : File) (i : nat) (c b : string) :
  open_node w f = Some i → w_nodes w !! i = Some c →
  Write w f b =
    (mkWorld (w_dir w) (<[i := c +:+ b]> (w_nodes w)) (w_fds w) (w_denied w), None).
Proof. intros Hf Hi. unfold Write. by rewrite Hf, Hi. Qed.

Lemma Write_frame (w : World) (f : File) (b : string) :
  w_dir (Write w f b).1 = w_dir w ∧ w_fds (Write w f b).1 = w_fds w ∧
  w_denied (Write w f b).1 = w_denied w ∧
  length (w_nodes (Write w f b).1) = length (w_nodes w).
Proof.
  unfold Write. destruct (open_node w f) as [i|]; [|done].
  destruct (w_nodes w !! i); simpl; [|done]. by rewrite length_insert.
Qed.

Lemma Write_other (w : World) (f : File) (b : string) (i j : nat) :
  open_node w f = Some i → j ≠ i →
  w_nodes (Write w f b).1 !! j = w_nodes w !! j.
Proof.
  intros Hf Hj. unfold Write. rewrite Hf.
  destruct (w_nodes w !! i); simpl; [|done]. by rewrite list_lookup_insert_ne.
Qed.

End OSFacts.

(* ===================================================================== *)
(** ** Facts about the package                                            *)
(* ===================================================================== *)

Section PackageFacts.

Lemma same_config_refl (l : Logger) : same_config l l.
Proof. by repeat split. Qed.

Lemma same_config_trans (a b c : Logger) :
  same_config a b → same_config b c → same_config a c.
Proof. unfold same_config. intros ? ?. intuition congruence. Qed.

Lemma initializeLoggers_wired (l : Logger) : wired (initializeLoggers l).
Proof. reflexivity. Qed.

Lemma Shutdown_spec (w w' : World) (l l' : Logger) (e : option error) :
  Shutdown w l = (w', l', e) →
  l' = set_loggers l (map (λ _, None) (loggers l)) ∧
  w_nodes w' = w_nodes w ∧ w_dir w' = w_dir w.
Proof.
  unfold Shutdown. simpl. destruct (file l) as [f|]; [|by intros [= <- <- <-]].
  destruct (Close w f) as [w1 [err|]] eqn:HC; intros [= <- <- <-];
    by apply Close_nodes in HC as [-> ->].
Qed.

Lemma openFileAndInitialize_spec (w w' : World) (l l' : Logger) (e : option error) :
  openFileAndInitialize w l = (w', l', e) →
  grown (w_nodes w) (w_nodes w') ∧ wired l' ∧ same_config l l' ∧
  rotation l' = rotation l ∧ writesSinceCheckRotate l' = 0 ∧ is_Some (file l').
Proof.
  unfold openFileAndInitialize. simpl.
  case_decide as Hp; [intros [= <- <- <-]; simpl|].
  { split; [apply grown_refl|]. by repeat split; eauto. }
  destruct (file l) as [f|] eqn:Hf.
  - destruct (Shutdown w _) as [[w1 l1] e1] eqn:HS.
    apply Shutdown_spec in HS as (-> & Hn & Hd). simpl in *.
    destruct e1 as [err|];
      (destruct (OpenFile w1 _) as [w2 [err2|f2]] eqn:HO;
       apply OpenFile_grown in HO; rewrite Hn in HO;
       intros [= <- <- <-]; simpl; by repeat split; eauto).
  - destruct (OpenFile w _) as [w2 [err2|f2]] eqn:HO;
      apply OpenFile_grown in HO;
      intros [= <- <- <-]; simpl; by repeat split; eauto.
Qed.

Lemma checkSizeAndRotate_spec (w w' : World) (l l' : Logger) (e : option error) :
  checkSizeAndRotate w l = (w', l', e) →
  grown (w_nodes w) (w_nodes w') ∧ (wired l → wired l') ∧ same_config l l' ∧
  (filePath l ≠ "" → writesSinceCheckRotate l' = 0).
Proof.
  unfold checkSizeAndRotate.
  case_decide as Hp; [intros [= <- <- <-]|].
  { split; [apply grown_refl|]. by repeat split. }
  destruct (Stat w _) as [err|size]; [intros [= <- <- <-]|].
  { split; [apply grown_refl|]. by repeat split. }
  destruct (size >? _); [|intros [= <- <- <-]]; cycle 1.
  { split; [apply grown_refl|]. by repeat split. }
  set (l1 := if _ >=? maxRotations then _ else _).
  assert (Hl1 : same_config l l1 ∧ loggers l1 = loggers l ∧ file l1 = file l ∧
                writesSinceCheckRotate l1 = 0).
  { subst l1. destruct (_ >=? _); by repeat split. }
  destruct Hl1 as (Hc & Hlg & Hfl & Hz1). clearbody l1.
  destruct (Remove w _) as [w1 e1] eqn:HR.
  apply Remove_nodes in HR as [Hn _].
  assert (Hopen : openFileAndInitialize w1 l1 = (w', l', e) →
    grown (w_nodes w) (w_nodes w') ∧ (wired l → wired l') ∧ same_config l l' ∧
    (filePath l ≠ "" → writesSinceCheckRotate l' = 0)).
  { intros HO. apply openFileAndInitialize_spec in HO
      as (Hg & Hw & Hc' & _ & Hz & _).
    rewrite Hn in Hg. split; [exact Hg|]. split; [auto|].
    split; [by eapply same_config_trans|auto]. }
  destruct e1 as [err|]; [|exact Hopen].
  destruct (negb (IsNotExist err)); [|exact Hopen].
  intros [= <- <- <-]. rewrite Hn.
  split; [apply grown_refl|].
  split; [|by split].
  unfold wired. destruct Hc as (_ & Hfg & _ & Hlv & _ & _).
  intros Hw. by rewrite Hlg, Hfl, Hfg, Hlv.
Qed.

End PackageFacts.

Section EmitFacts.

Context `{Collaborators}.

Lemma geb_true (n m : Z) : m <= n → (n >=? m) = true.
Proof. intros. rewrite Z.geb_leb. by apply Z.leb_le. Qed.

Lemma geb_false (n m : Z) : n < m → (n >=? m) = false.
Proof. intros. rewrite Z.geb_leb. by apply Z.leb_gt. Qed.

Lemma rotation_trigger_spec (w w' : World) (l l' : Logger) :
  rotation_trigger w l = (w', l') →
  grown (w_nodes w) (w_nodes w') ∧ (wired l → wired l') ∧ same_config l l' ∧
  (filePath l = "" → w' = w ∧ l' = l) ∧
  (filePath l ≠ "" →
   writesSinceCheckRotate l' =
     if wrap64 (writesSinceCheckRotate l + 1) >=? checkLogSize l then 0
     else wrap64 (writesSinceCheckRotate l + 1)).
Proof.
  unfold rotation_trigger. case_decide as Hp.
  { intros [= <- <-]. split; [apply grown_refl|].
    repeat split; try done. }
  cbn [writesSinceCheckRotate checkLogSize set_writesSinceCheckRotate].
  destruct (_ >=? _) eqn:Hge.
  - destruct (checkSizeAndRotate w _) as [[w1 l1] e1] eqn:HC.
    intros [= <- <-].
    apply checkSizeAndRotate_spec in HC as (Hg & Hw & Hc & Hz).
    split; [exact Hg|]. split; [exact Hw|]. split; [exact Hc|].
    split; [done|]. intros _. by apply Hz.
  - intros [= <- <-]. split; [apply grown_refl|].
    repeat split; try done.
Qed.

(** A call below the threshold goes straight to the bookkeeping. *)
Lemma printCommon_filtered (w : World) (l : Logger) (sev : LoghLevel)
    (format : string) (v : list any) :
  sev < len (levels l) → sev < level l →
  printCommon w (Some l) sev format v =
    Done ((rotation_trigger w l).1, Some (rotation_trigger w l).2).
Proof.
  intros Hlen Hlev. unfold printCommon, rotation_trigger.
  rewrite (geb_false sev (len (levels l))) by lia.
  rewrite (geb_false sev (level l)) by lia.
  case_decide; [done|].
  cbn [writesSinceCheckRotate checkLogSize set_writesSinceCheckRotate].
  destruct (_ >=? _); [|done].
  by destruct (checkSizeAndRotate w _) as [[w1 l1] e1].
Qed.

Lemma wired_index (l : Logger) (sev : LoghLevel) :
  wired l → 0 <= sev < len (levels l) →
  ∃ label, levels l !! Z.to_nat sev = Some label ∧
    index (loggers l) sev = Some (Some (mkLog (file l) (label +:+ ": ") (flags l))).
Proof.
  intros Hw [H0 Hlen]. unfold len in Hlen.
  destruct (lookup_lt_is_Some_2 (levels l) (Z.to_nat sev)) as [label Hl]; [lia|].
  exists label. split; [exact Hl|].
  unfold index. rewrite (proj2 (Z.ltb_ge sev 0)) by lia.
  rewrite Hw, list_lookup_fmap, Hl. reflexivity.
Qed.

(** A call at or above the threshold writes one record through the
    logger of its level, then does the bookkeeping. *)
Lemma printCommon_emitted (w : World) (l : Logger) (sev : LoghLevel)
    (format : string) (v : list any) (label : string) :
  wired l → 0 <= sev < len (levels l) → level l <= sev →
  levels l !! Z.to_nat sev = Some label →
  let w1 := (log_Output w (mkLog (file l) (label +:+ ": ") (flags l))
                        (Sprintf format v)).1 in
  printCommon w (Some l) sev format v =
    Done ((rotation_trigger w1 l).1, Some (rotation_trigger w1 l).2).
Proof.
  intros Hw Hr Hlev Hl w1.
  destruct (wired_index l sev Hw Hr) as (label' & Hl' & Hi).
  assert (label' = label) as -> by congruence.
  unfold printCommon, rotation_trigger.
  rewrite (geb_false sev (len (levels l))) by lia.
  rewrite (geb_true sev (level l)) by lia.
  rewrite Hi. fold w1.
  case_decide; [done|].
  cbn [writesSinceCheckRotate checkLogSize set_writesSinceCheckRotate].
  destruct (_ >=? _); [|done].
  by destruct (checkSizeAndRotate w1 _) as [[w2 l2] e2].
Qed.

End EmitFacts.

Section EmitSteps.

Context `{Collaborators}.

Lemma run_emit_printCommon (w : World) (l : option Logger) (sev : LoghLevel)
    (c : emit_call) :
  ∃ format v, message c = Sprintf format v ∧
    run_emit w l sev c = printCommon w l sev format v.
Proof. destruct c as [format v|v]; eauto. Qed.

Lemma run_emit_in_range (w : World) (l : Logger) (sev : LoghLevel) (c : emit_call) :
  wired l → 0 <= sev < len (levels l) →
  let w1 := emit_world w l sev (message c) in
  run_emit w (Some l) sev c =
    Done ((rotation_trigger w1 l).1, Some (rotation_trigger w1 l).2).
Proof.
  intros Hw Hr. destruct (run_emit_printCommon w (Some l) sev c)
    as (format & v & -> & ->).
  unfold emit_world.
  destruct (Z.lt_ge_cases sev (level l)) as [Hlt|Hge].
  - rewrite (geb_false sev (level l)) by lia.
    apply printCommon_filtered; lia.
  - rewrite (geb_true sev (level l)) by lia.
    destruct (wired_index l sev Hw Hr) as (label & Hl & _). rewrite Hl.
    by apply printCommon_emitted.
Qed.


Lemma emit_world_frame (w : World) (l : Logger) (sev : LoghLevel) (s : string) :
  let w1 := emit_world w l sev s in
  w_dir w1 = w_dir w ∧ w_fds w1 = w_fds w ∧ w_denied w1 = w_denied w ∧
  length (w_nodes w1) = length (w_nodes w).
Proof.
  unfold emit_world. destruct (sev >=? level l); [|done].
  destruct (levels l !! Z.to_nat sev); [|done].
  unfold log_Output; cbn [lg_out]. destruct (file l); [|done].
  apply Write_frame.
Qed.

End EmitSteps.

(* ===================================================================== *)
(** ** Opening, closing and removing files                                *)
(* ===================================================================== *)

Section FileFacts.

Lemma slot_paths_differ (l : Logger) : slot_path l 0 ≠ slot_path l 1.
Proof.
  unfold slot_path. intros E. apply (inj (String.app (filePath l))) in E.
  discriminate E.
Qed.

Lemma node_at_Some (w : World) (p : string) (i : nat) :
  node_at w p = Some i ↔ w_dir w !! p = Some i ∧ (i < length (w_nodes w))%nat.
Proof.
  unfold node_at. destruct (w_dir w !! p) as [j|]; [case_decide as Hj|].
  - split; [intros [= <-]; by split|intros [[= <-] _]; reflexivity].
  - split; [discriminate|]. intros [[= <-] Hi]. contradiction.
  - split; [discriminate|intros [? _]; discriminate].
Qed.

Lemma file_at_Some (w : World) (p : string) (c : string) :
  file_at w p = Some c ↔ ∃ i, node_at w p = Some i ∧ w_nodes w !! i = Some c.
Proof.
  unfold file_at. destruct (node_at w p) as [j|].
  - split; [intros Hc; by exists j|intros (i & [= <-] & Hc); exact Hc].
  - split; [discriminate|intros (i & Hi & _); discriminate].
Qed.

Lemma file_at_None (w : World) (p : string) :
  file_at w p = None ↔ node_at w p = None.
Proof.
  unfold file_at. destruct (node_at w p) as [i|] eqn:E; [|done].
  apply node_at_Some in E as [_ Hi]. apply lookup_lt_is_Some_2 in Hi as [c Hc].
  rewrite Hc. split; discriminate.
Qed.

(** Removing a path the process may remove: the name is gone (a missing
    name is reported as [ENOENT]), every other name, every inode and every
    handle is as before. *)
Lemma Remove_allowed (w : World) (p : string) :
  p ∉ w_denied w →
  ∃ w' e, Remove w p = (w', e) ∧
    match e with Some err => IsNotExist err = true | None => True end ∧
    file_at w' p = None ∧ w_nodes w' = w_nodes w ∧ w_fds w' = w_fds w ∧
    w_denied w' = w_denied w ∧
    (∀ q, q ≠ p → w_dir w' !! q = w_dir w !! q).
Proof.
  intros Hp. unfold Remove. destruct (file_at w p) as [c|] eqn:Hc.
  - rewrite decide_False by exact Hp. eexists _, None. split; [reflexivity|].
    split; [exact I|]. split.
    + unfold file_at, node_at; simpl. by rewrite lookup_delete_eq.
    + repeat split; try done. intros q Hq. simpl. by rewrite lookup_delete_ne.
  - eexists w, (Some _). split; [reflexivity|]. by repeat split.
Qed.

(** Closing an open handle. *)
Lemma Close_open (w : World) (f : File) (i : nat) :
  open_node w f = Some i →
  ∃ w', Close w f = (w', None) ∧ open_node w' f = None ∧
    w_dir w' = w_dir w ∧ w_nodes w' = w_nodes w ∧ w_denied w' = w_denied w ∧
    length (w_fds w') = length (w_fds w).
Proof.
  unfold open_node, Close. destruct (w_fds w !! f) as [d|] eqn:Hd; [|done].
  destruct (fd_closed d); [done|]. intros _. eexists. split; [reflexivity|].
  simpl. rewrite list_lookup_insert_eq by (by eapply lookup_lt_Some).
  simpl. by rewrite length_insert.
Qed.

(** Opening a path the process may open: a fresh handle, open on the inode
    of the path; that inode is the one the path named before, with its
    content, or a new empty one. *)
Lemma OpenFile_allowed (w : World) (p : string) :
  p ∉ w_denied w →
  ∃ w' node, OpenFile w p = (w', inr (length (w_fds w))) ∧
    open_node w' (length (w_fds w)) = Some node ∧
    node_at w' p = Some node ∧
    file_at w' p = Some (default "" (file_at w p)) ∧
    (file_at w p = None → w_nodes w !! node = None) ∧
    grown (w_nodes w) (w_nodes w') ∧
    (∀ g, g ≠ length (w_fds w) → open_node w' g = open_node w g) ∧
    (∀ q, q ≠ p → w_dir w' !! q = w_dir w !! q).
Proof.
  intros Hp. unfold OpenFile. rewrite decide_False by exact Hp.
  assert (Hfds : ∀ d g, g ≠ length (w_fds w) →
            (w_fds w ++ [d]) !! g = w_fds w !! g).
  { intros d g Hg. destruct (decide (g < length (w_fds w))%nat).
    - by rewrite lookup_app_l.
    - rewrite !lookup_ge_None_2; [done|lia|]. rewrite length_app. simpl. lia. }
  destruct (node_at w p) as [i|] eqn:Hn.
  - exists (mkWorld (w_dir w) (w_nodes w) (w_fds w ++ [Fdesc i false]) (w_denied w)), i.
    split; [reflexivity|].
    pose proof Hn as Hn'. apply node_at_Some in Hn' as [Hd Hi].
    apply lookup_lt_is_Some_2 in Hi as [c Hc].
    unfold open_node, file_at. simpl.
    rewrite lookup_app_r, Nat.sub_diag by lia. simpl.
    change (node_at (mkWorld (w_dir w) (w_nodes w) (w_fds w ++ [Fdesc i false])
                             (w_denied w)) p) with (node_at w p).
    rewrite Hn, Hc. simpl.
    repeat split; try done; [apply grown_refl|].
    intros g Hg. by rewrite Hfds.
  - exists (mkWorld (<[p := length (w_nodes w)]> (w_dir w)) (w_nodes w ++ [""])
                    (w_fds w ++ [Fdesc (length (w_nodes w)) false]) (w_denied w)),
           (length (w_nodes w)).
    split; [reflexivity|].
    unfold open_node, file_at, node_at. simpl.
    rewrite lookup_app_r, Nat.sub_diag by lia. simpl.
    rewrite lookup_insert_eq, length_app. simpl.
    rewrite decide_True by lia.
    rewrite lookup_app_r, Nat.sub_diag by lia. simpl.
    fold (node_at w p). rewrite Hn. simpl.
    repeat split; try done.
    + intros _. by apply lookup_ge_None_2.
    + by exists 1%nat.
    + intros g Hg. by rewrite Hfds.
    + intros q Hq. by rewrite lookup_insert_ne.
Qed.

End FileFacts.

Section OpenAndSwitch.

Lemma file_at_kept (w w' : World) (p c : string) :
  file_at w p = Some c → w_dir w' !! p = w_dir w !! p →
  grown (w_nodes w) (w_nodes w') → file_at w' p = Some c.
Proof.
  intros Hc Hd Hg. apply file_at_Some in Hc as (i & Hn & Hi).
  apply node_at_Some in Hn as [Hdi Hlt].
  apply file_at_Some. exists i. split; [|by eapply grown_lookup].
  apply node_at_Some. split; [congruence|].
  eapply lookup_lt_Some, grown_lookup; eauto.
Qed.

(** [openFileAndInitialize] on a logger without a handle, as [New] calls
    it: the slot is opened, nothing is closed. *)
Lemma openFileAndInitialize_fresh (w : World) (l : Logger) :
  filePath l ≠ "" → file l = None →
  slot_path l (rotation l) ∉ w_denied w →
  let p := slot_path l (rotation l) in
  ∃ w' l' f' node',
    openFileAndInitialize w l = (w', l', None) ∧
    file l' = Some f' ∧ rotation l' = rotation l ∧ wired l' ∧ same_config l l' ∧
    writesSinceCheckRotate l' = 0 ∧
    open_node w' f' = Some node' ∧ node_at w' p = Some node' ∧
    file_at w' p = Some (default "" (file_at w p)) ∧
    (file_at w p = None → w_nodes w !! node' = None) ∧
    grown (w_nodes w) (w_nodes w') ∧
    (∀ q, q ≠ p → w_dir w' !! q = w_dir w !! q).
Proof.
  intros Hp Hf Hden p.
  destruct (OpenFile_allowed w p Hden)
    as (w' & node' & HO & Hon & Hna & Hfa & Hnew & Hg & _ & Hdir).
  unfold openFileAndInitialize.
  cbn [filePath file set_writesSinceCheckRotate rotation].
  rewrite decide_False by exact Hp. rewrite Hf. cbv beta iota zeta.
  change (slot_path (set_writesSinceCheckRotate l 0) _) with p.
  rewrite HO. eexists w', _, (length (w_fds w)), node'.
  split; [reflexivity|]. by repeat split.
Qed.

(** [openFileAndInitialize] on a running logger, as the rotation calls it:
    the handle in use is closed and the slot is opened on a new handle. *)
Lemma openFileAndInitialize_switch (w : World) (l : Logger) (f : File) (node : nat) :
  filePath l ≠ "" → file l = Some f → open_node w f = Some node →
  slot_path l (rotation l) ∉ w_denied w →
  let p := slot_path l (rotation l) in
  ∃ w' l' f' node',
    openFileAndInitialize w l = (w', l', None) ∧
    file l' = Some f' ∧ rotation l' = rotation l ∧ wired l' ∧ same_config l l' ∧
    writesSinceCheckRotate l' = 0 ∧
    open_node w' f' = Some node' ∧ node_at w' p = Some node' ∧
    file_at w' p = Some (default "" (file_at w p)) ∧
    (file_at w p = None → w_nodes w !! node' = None) ∧
    open_node w' f = None ∧
    grown (w_nodes w) (w_nodes w') ∧
    (∀ q, q ≠ p → w_dir w' !! q = w_dir w !! q).
Proof.
  intros Hp Hf Ho Hden p.
  destruct (Close_open w f node Ho) as (w1 & HC & Hcl & Hd1 & Hn1 & Hden1 & Hlen1).
  assert (Hden' : p ∉ w_denied w1) by (by rewrite Hden1).
  destruct (OpenFile_allowed w1 p Hden')
    as (w' & node' & HO & Hon & Hna & Hfa & Hnew & Hg & Hfds & Hdir).
  assert (Hfa1 : file_at w1 p = file_at w p).
  { unfold file_at, node_at. by rewrite Hd1, Hn1. }
  assert (Hlt : (f < length (w_fds w))%nat).
  { unfold open_node in Ho. destruct (w_fds w !! f) eqn:E; [|done].
    by eapply lookup_lt_Some. }
  unfold openFileAndInitialize.
  cbn [filePath file set_writesSinceCheckRotate rotation].
  rewrite decide_False by exact Hp. rewrite Hf.
  unfold Shutdown. cbn [file set_loggers set_writesSinceCheckRotate].
  rewrite Hf, HC. cbv beta iota zeta.
  change (slot_path (set_loggers _ _) _) with p.
  rewrite HO. eexists w', _, (length (w_fds w1)), node'.
  split; [reflexivity|].
  rewrite Hfa1, Hn1 in *.
  split; [done|]. split; [done|]. split; [done|]. split; [done|].
  split; [done|]. split; [done|]. split; [done|]. split; [done|].
  split; [done|]. split; [|split; [done|]].
  - rewrite Hfds by lia. exact Hcl.
  - intros q Hq. rewrite Hdir by done. by rewrite Hd1.
Qed.

End OpenAndSwitch.

(* ===================================================================== *)
(** ** Level filter                                                       *)
(* ===================================================================== *)

Section LevelFilter.

Context `{Collaborators}.


End LevelFilter.



(* ===================================================================== *)
(** ** Size check and rotation                                            *)
(* ===================================================================== *)

Section Rotation.

Context `{Collaborators}.

Lemma next_rotation (l : Logger) :
  0 <= rotation l < maxRotations →
  (if rotation (set_rotation l (wrap64 (rotation l + 1))) >=? maxRotations
   then set_rotation (set_rotation l (wrap64 (rotation l + 1))) 0
   else set_rotation l (wrap64 (rotation l + 1)))
  = set_rotation l (1 - rotation l).
Proof.
  unfold maxRotations. intros Hr.
  assert (rotation l = 0 ∨ rotation l = 1) as [E|E] by lia;
    cbn [rotation set_rotation]; rewrite E; reflexivity.
Qed.

(** The contract of [checkSizeAndRotate] on a running file-backed logger
    whose active file is [c]. *)
Lemma checkSizeAndRotate_contract (w : World) (l : Logger) (f : File)
    (node : nat) (c : string) :
  filePath l ≠ "" → 0 <= rotation l < maxRotations →
  file l = Some f → open_node w f = Some node →
  file_at w (slot_path l (rotation l)) = Some c →
  let p := slot_path l (rotation l) in
  let p' := slot_path l (1 - rotation l) in
  ∃ w' l' e,
    checkSizeAndRotate w l = (w', l', e) ∧
    writesSinceCheckRotate l' = 0 ∧
    (strlen c <= maxLogSize l →
     w' = w ∧ l' = set_writesSinceCheckRotate l 0 ∧ e = None) ∧
    (maxLogSize l < strlen c → p' ∉ w_denied w →
     e = None ∧ rotation l' = 1 - rotation l ∧ wired l' ∧
     ∃ f' node',
       file l' = Some f' ∧ open_node w' f' = Some node' ∧
       node_at w' p' = Some node' ∧ w_nodes w !! node' = None ∧
       file_at w' p' = Some "" ∧
       open_node w' f = None ∧
       file_at w' p = Some c).
Proof.
  intros Hp Hr Hf Ho Hc p p'.
  assert (Hpp : p ≠ p').
  { subst p p'. unfold maxRotations in Hr.
    assert (rotation l = 0 ∨ rotation l = 1) as [E|E] by lia; rewrite E;
      [apply slot_paths_differ|apply not_eq_sym, slot_paths_differ]. }
  unfold checkSizeAndRotate. rewrite decide_False by exact Hp.
  change (slot_path (set_writesSinceCheckRotate l 0)
            (rotation (set_writesSinceCheckRotate l 0))) with p.
  unfold Stat. fold p in Hc. rewrite Hc.
  change (maxLogSize (set_writesSinceCheckRotate l 0)) with (maxLogSize l).
  destruct (strlen c >? maxLogSize l) eqn:Hsz.
  2:{ eexists _, _, _. split; [reflexivity|]. split; [reflexivity|].
      split; [done|]. intros Hgt. rewrite Z.gtb_ltb in Hsz. apply Z.ltb_ge in Hsz. lia. }
  cbv zeta. rewrite (next_rotation (set_writesSinceCheckRotate l 0)) by exact Hr.
  set (l1 := set_rotation (set_writesSinceCheckRotate l 0) _).
  change (slot_path l1 (rotation l1)) with p'.
  (* the file is over the limit: what a permitted switch does *)
  assert (Hswitch : p' ∉ w_denied w →
    ∃ w' l' f' node',
      (match Remove w p' with
       | (w0, Some err) =>
           if negb (IsNotExist err) then (w0, l1, Some err)
           else openFileAndInitialize w0 l1
       | (w0, None) => openFileAndInitialize w0 l1
       end) = (w', l', None) ∧
      writesSinceCheckRotate l' = 0 ∧ rotation l' = 1 - rotation l ∧ wired l' ∧
      file l' = Some f' ∧ open_node w' f' = Some node' ∧
      node_at w' p' = Some node' ∧ w_nodes w !! node' = None ∧
      file_at w' p' = Some "" ∧ open_node w' f = None ∧ file_at w' p = Some c).
  { intros Hden.
    destruct (Remove_allowed w p' Hden)
      as (w0 & e0 & HR & He0 & Hgone & Hn0 & Hf0 & Hd0 & Hdir0).
    assert (Ho0 : open_node w0 f = Some node) by (unfold open_node; by rewrite Hf0).
    assert (Hden0 : slot_path l1 (rotation l1) ∉ w_denied w0) by (by rewrite Hd0).
    destruct (openFileAndInitialize_switch w0 l1 f node Hp Hf Ho0 Hden0)
      as (w' & l' & f' & node' & HO & Hfl & Hrot & Hw & _ & Hz & Hon & Hna &
          Hfa & Hnew & Hcl & Hg & Hdir).
    change (slot_path l1 (rotation l1)) with p' in *.
    exists w', l', f', node'. split.
    { rewrite HR. destruct e0 as [err|]; [by rewrite He0|done]. }
    rewrite Hgone in Hfa. rewrite Hn0 in *.
    split; [done|]. split; [done|]. split; [done|]. split; [done|].
    split; [done|]. split; [done|]. split; [by apply Hnew|].
    split; [done|]. split; [done|].
    apply (file_at_kept w w' p c Hc); [|exact Hg].
    rewrite Hdir by done. by apply Hdir0. }
  destruct (Remove w p') as [w0 e0] eqn:HR.
  destruct (decide (p' ∈ w_denied w)) as [Hin|Hout].
  - (* the new slot may not be touched: nothing is promised beyond the reset *)
    assert (∃ w' l' e, (match e0 with
              | Some err => if negb (IsNotExist err) then (w0, l1, Some err)
                            else openFileAndInitialize w0 l1
              | None => openFileAndInitialize w0 l1 end) = (w', l', e) ∧
              writesSinceCheckRotate l' = 0) as (w' & l' & e & HE & Hz).
    { assert (Hany : ∀ w0, ∃ w' l' e,
                openFileAndInitialize w0 l1 = (w', l', e) ∧
                writesSinceCheckRotate l' = 0).
      { intros w2. destruct (openFileAndInitialize w2 l1) as [[w' l'] e] eqn:HO.
        exists w', l', e. split; [done|].
        by apply openFileAndInitialize_spec in HO as (_ & _ & _ & _ & Hz & _). }
      destruct e0 as [err|]; [|apply Hany].
      destruct (negb (IsNotExist err)); [|apply Hany].
      by eexists _, _, _. }
    exists w', l', e. split; [exact HE|]. split; [exact Hz|].
    split; [intros Hle; apply Z.gtb_lt in Hsz; lia|]. by intros _ Hnot.
  - destruct (Hswitch Hout)
      as (w' & l' & f' & node' & HE & Hz & Hrot & Hw & Hrest).
    exists w', l', None. split; [exact HE|]. split; [exact Hz|].
    split; [intros Hle; apply Z.gtb_lt in Hsz; lia|].
    intros _ _. split; [done|]. split; [done|]. split; [done|].
    by exists f', node'.
Qed.

(** C2. On a running file-backed logger, an emit in which the write counter
    reaches the check interval resets the counter to zero and measures the
    file of the active slot.  If that file is not larger than the maximum,
    nothing else happens.  If it is strictly larger, and the other slot's
    path may be removed and opened, the slot advances cyclically (0 to 1,
    1 to 0); the new slot's path names a new, empty inode, so a file that
    was there before has been deleted; the logger writes to a new open
    handle on it; the previous handle is closed; and the file of the slot
    switched away from holds exactly what it held. *)
Theorem size_check_and_rotation (w : World) (l : Logger) (sev : LoghLevel)
    (call : emit_call) (f : File) (node : nat) (c : string) :
  wired l → 0 <= sev < len (levels l) →
  filePath l ≠ "" → 0 <= rotation l < maxRotations →
  file l = Some f → open_node w f = Some node →
  let w1 := emit_world w l sev (message call) in
  file_at w1 (slot_path l (rotation l)) = Some c →
  checkLogSize l <= wrap64 (writesSinceCheckRotate l + 1) →
  let p := slot_path l (rotation l) in
  let p' := slot_path l (1 - rotation l) in
  ∃ w' l',
    run_emit w (Some l) sev call = Done (w', Some l') ∧
    writesSinceCheckRotate l' = 0 ∧
    (strlen c <= maxLogSize l →
     w' = w1 ∧ rotation l' = rotation l ∧ file l' = Some f) ∧
    (maxLogSize l < strlen c → p' ∉ w_denied w →
     rotation l' = 1 - rotation l ∧ wired l' ∧
     ∃ f' node',
       file l' = Some f' ∧ open_node w' f' = Some node' ∧
       node_at w' p' = Some node' ∧ w_nodes w !! node' = None ∧
       file_at w' p' = Some "" ∧
       open_node w' f = None ∧
       file_at w' p = Some c).
Proof.
  intros Hw Hr Hp Hrot Hf Ho w1 Hc Hreach p p'.
  rewrite (run_emit_in_range w l sev call Hw Hr). cbv zeta. fold w1.
  pose proof (emit_world_frame w l sev (message call)) as (_ & Hfds & Hden & Hlen).
  fold w1 in Hfds, Hden, Hlen.
  assert (Ho1 : open_node w1 f = Some node) by (unfold open_node; by rewrite Hfds).
  unfold rotation_trigger. rewrite decide_False by exact Hp.
  cbn [writesSinceCheckRotate checkLogSize set_writesSinceCheckRotate].
  rewrite geb_true by exact Hreach.
  set (l2 := set_writesSinceCheckRotate l _).
  destruct (checkSizeAndRotate_contract w1 l2 f node c Hp Hrot Hf Ho1 Hc)
    as (w' & l' & e & HE & Hz & Hsmall & Hbig).
  rewrite HE. exists w', l'. split; [reflexivity|]. split; [exact Hz|]. split.
  - intros Hle. destruct (Hsmall Hle) as (-> & -> & _). by repeat split.
  - intros Hgt Hnot. rewrite <- Hden in Hnot.
    destruct (Hbig Hgt Hnot) as (_ & Hrot' & Hw' & f' & node' & Hrest).
    split; [exact Hrot'|]. split; [exact Hw'|]. exists f', node'.
    destruct Hrest as (? & ? & ? & Hnone & ? & ? & ?).
    repeat split; try done.
    apply lookup_ge_None. apply lookup_ge_None in Hnone. lia.
Qed.

End Rotation.

Lemma size_check_and_rotation_witness :
  let w1 := @emit_world plain demo_world tight_logger Warning (message demo_call) in
  let p := slot_path tight_logger (rotation tight_logger) in
  let p' := slot_path tight_logger (1 - rotation tight_logger) in
  ∃ w' l',
    run_emit demo_world (Some tight_logger) Warning demo_call = Done (w', Some l') ∧
    writesSinceCheckRotate l' = 0 ∧
    (strlen ("info: started" +:+ nl +:+ "warning: disk full" +:+ nl)
       <= maxLogSize tight_logger →
     w' = w1 ∧ rotation l' = rotation tight_logger ∧ file l' = Some 1%nat) ∧
    (maxLogSize tight_logger
       < strlen ("info: started" +:+ nl +:+ "warning: disk full" +:+ nl) →
     p' ∉ w_denied demo_world →
     rotation l' = 1 - rotation tight_logger ∧ wired l' ∧
     ∃ f' node',
       file l' = Some f' ∧ open_node w' f' = Some node' ∧
       node_at w' p' = Some node' ∧ w_nodes demo_world !! node' = None ∧
       file_at w' p' = Some "" ∧
       open_node w' 1%nat = None ∧
       file_at w' p = Some ("info: started" +:+ nl +:+ "warning: disk full" +:+ nl)).
Proof.
  apply (size_check_and_rotation demo_world tight_logger Warning demo_call
           1%nat 1%nat ("info: started" +:+ nl +:+ "warning: disk full" +:+ nl)).
  - reflexivity.
  - vm_compute. split; [discriminate|reflexivity].
  - discriminate.
  - vm_compute. split; [discriminate|reflexivity].
  - reflexivity.
  - reflexivity.
  - vm_compute. reflexivity.
  - vm_compute. discriminate.
Defined.

(* ===================================================================== *)
(** ** Initial slot                                                       *)
(* ===================================================================== *)

Section InitialSlot.

Lemma initializeRotation_selects (w : World) (l : Logger) :
  initializeRotation w l =
    if both_full w l then
      let '(w', err) := Remove w (slot_path l 0) in (w', set_rotation l 0, err)
    else (w, set_rotation l (selected_slot w l), None).
Proof.
  unfold initializeRotation, both_full, selected_slot, slot_available.
  change (Z.to_nat maxRotations) with 2%nat.
  cbn [initializeRotation_scan]. unfold Stat.
  change (wrap64 (0 + 1)) with 1.
  destruct (file_at w (slot_path l 0)) as [c0|]; [|reflexivity].
  destruct (strlen c0 <? maxLogSize l); [reflexivity|].
  destruct (file_at w (slot_path l 1)) as [c1|]; [|reflexivity].
  destruct (strlen c1 <? maxLogSize l); reflexivity.
Qed.

Lemma selected_slot_available (w : World) (l : Logger) :
  both_full w l = false → slot_available w l (selected_slot w l) = true.
Proof.
  unfold both_full, selected_slot.
  destruct (slot_available w l 0) eqn:E0; [done|].
  destruct (slot_available w l 1) eqn:E1; done.
Qed.

(** C3. Construction of a file-backed logger selects the slot by the rule
    above: [initializeRotation] sets the rotation to the first available
    slot and leaves the world alone, or, when both files exist at or over the
    maximum, sets it to 0 and deletes that file.  [openFileAndInitialize]
    then opens the selected path on a new handle: an existing file is opened
    on its own inode with its content in place, so that writes append to it;
    otherwise (missing or just deleted) the path names a new empty file.
    The permissions are assumed to allow removing and opening the path. *)
Theorem initial_slot (w : World) (l : Logger) :
  filePath l ≠ "" → file l = None →
  let slot := selected_slot w l in
  let p := slot_path l slot in
  p ∉ w_denied w →
  ∃ w1 l1,
    initializeRotation w l = (w1, l1, None) ∧
    rotation l1 = slot ∧
    (both_full w l = false → w1 = w) ∧
    (both_full w l = true →
     slot = 0 ∧ is_Some (file_at w p) ∧ file_at w1 p = None) ∧
    ∃ w2 l2 f node,
      openFileAndInitialize w1 l1 = (w2, l2, None) ∧
      rotation l2 = slot ∧ file l2 = Some f ∧ wired l2 ∧
      open_node w2 f = Some node ∧ node_at w2 p = Some node ∧
      file_at w2 p =
        Some (if both_full w l then "" else default "" (file_at w p)) ∧
      (both_full w l = false → ∀ c, file_at w p = Some c →
       strlen c < maxLogSize l ∧ node_at w p = Some node ∧
       w_nodes w2 !! node = Some c).
Proof.
  intros Hp Hf slot p Hden.
  rewrite initializeRotation_selects.
  destruct (both_full w l) eqn:Hfull.
  - (* both slots are at or over the maximum *)
    assert (Hslot : slot = 0).
    { subst slot. unfold selected_slot. unfold both_full in Hfull.
      by repeat destruct (slot_available w l _). }
    assert (Hp0 : p = slot_path l 0) by (subst p; by rewrite Hslot).
    assert (Hex : is_Some (file_at w p)).
    { rewrite Hp0. unfold both_full, slot_available in Hfull.
      destruct (file_at w (slot_path l 0)); [by eexists|done]. }
    rewrite <- Hp0.
    destruct (Remove_allowed w p Hden)
      as (w1 & e1 & HR & He1 & Hgone & Hn1 & Hf1 & Hd1 & Hdir1).
    rewrite HR.
    assert (e1 = None) as ->.
    { revert HR. unfold Remove. destruct Hex as [c Hc]. rewrite Hc.
      rewrite decide_False by exact Hden. by intros [= _ <-]. }
    exists w1, (set_rotation l 0). split; [reflexivity|].
    split; [by rewrite Hslot|]. split; [done|]. split; [done|].
    assert (Hden1 : slot_path (set_rotation l 0) (rotation (set_rotation l 0))
                    ∉ w_denied w1).
    { change (slot_path (set_rotation l 0) _) with (slot_path l 0).
      rewrite <- Hp0. by rewrite Hd1. }
    destruct (openFileAndInitialize_fresh w1 (set_rotation l 0) Hp Hf Hden1)
      as (w2 & l2 & f & node & HO & Hfl & Hrot & Hw & _ & _ & Hon & Hna &
          Hfa & _).
    change (slot_path (set_rotation l 0) _) with (slot_path l 0) in *.
    rewrite <- Hp0 in *. rewrite Hgone in Hfa.
    exists w2, l2, f, node. split; [exact HO|].
    split; [by rewrite Hrot, Hslot|]. by repeat split.
  - (* the first available slot *)
    exists w, (set_rotation l slot). split; [reflexivity|].
    split; [reflexivity|]. split; [done|]. split; [done|].
    destruct (openFileAndInitialize_fresh w (set_rotation l slot) Hp Hf Hden)
      as (w2 & l2 & f & node & HO & Hfl & Hrot & Hw & _ & _ & Hon & Hna &
          Hfa & _ & Hg & _).
    change (slot_path (set_rotation l slot) _) with p in *.
    exists w2, l2, f, node. split; [exact HO|].
    split; [exact Hrot|]. split; [exact Hfl|]. split; [exact Hw|].
    split; [exact Hon|]. split; [exact Hna|]. split; [exact Hfa|].
    intros _ c Hc. split; [|split].
    + pose proof (selected_slot_available w l Hfull) as Hav.
      unfold slot_available in Hav. fold slot p in Hav. rewrite Hc in Hav.
      by apply Z.ltb_lt.
    + (* the handle is on the inode the path named before *)
      apply file_at_Some in Hc as (i & Hni & Hi).
      revert HO. unfold openFileAndInitialize.
      cbn [filePath file set_writesSinceCheckRotate rotation set_rotation].
      rewrite decide_False by exact Hp. rewrite Hf. cbv beta iota zeta.
      change (slot_path (set_writesSinceCheckRotate (set_rotation l slot) 0) _)
        with p.
      unfold OpenFile. rewrite decide_False by exact Hden. rewrite Hni.
      intros [= <- <-]. revert Hna. unfold node_at. simpl.
      fold (node_at w p). rewrite Hni. by intros [= ->].
    + rewrite Hc in Hfa. simpl in Hfa.
      apply file_at_Some in Hfa as (i & Hni & Hi). congruence.
Qed.

End InitialSlot.

Lemma initial_slot_witness :
  let slot := selected_slot demo_world fresh_logger in
  let p := slot_path fresh_logger slot in
  ∃ w1 l1,
    initializeRotation demo_world fresh_logger = (w1, l1, None) ∧
    rotation l1 = slot ∧
    (both_full demo_world fresh_logger = false → w1 = demo_world) ∧
    (both_full demo_world fresh_logger = true →
     slot = 0 ∧ is_Some (file_at demo_world p) ∧ file_at w1 p = None) ∧
    ∃ w2 l2 f node,
      openFileAndInitialize w1 l1 = (w2, l2, None) ∧
      rotation l2 = slot ∧ file l2 = Some f ∧ wired l2 ∧
      open_node w2 f = Some node ∧ node_at w2 p = Some node ∧
      file_at w2 p =
        Some (if both_full demo_world fresh_logger then ""
              else default "" (file_at demo_world p)) ∧
      (both_full demo_world fresh_logger = false →
       ∀ c, file_at demo_world p = Some c →
       strlen c < maxLogSize fresh_logger ∧ node_at demo_world p = Some node ∧
       w_nodes w2 !! node = Some c).
Proof.
  apply (initial_slot demo_world fresh_logger).
  - discriminate.
  - reflexivity.
  - vm_compute. discriminate.
Defined.

(* ===================================================================== *)
(** ** Write counter                                                      *)
(* ===================================================================== *)

Section WriteCounter.

Context `{Collaborators}.

Lemma wrap64_small (z : Z) : in_int z → wrap64 z = z.
Proof.
  unfold in_int, min_int, max_int, wrap64. intros Hz.
  rewrite Z.mod_small; lia.
Qed.

(** The counter after the bookkeeping of one call on a file-backed
    logger. *)
Lemma rotation_trigger_counter (w w' : World) (l l' : Logger) :
  rotation_trigger w l = (w', l') → filePath l ≠ "" →
  writesSinceCheckRotate l' =
    (if wrap64 (writesSinceCheckRotate l + 1) >=? checkLogSize l then 0
     else wrap64 (writesSinceCheckRotate l + 1)) ∧
  (0 < checkLogSize l → writesSinceCheckRotate l' < checkLogSize l) ∧
  (in_int (checkLogSize l) →
   0 <= writesSinceCheckRotate l < checkLogSize l →
   wrap64 (writesSinceCheckRotate l + 1) = writesSinceCheckRotate l + 1 ∧
   0 <= writesSinceCheckRotate l' < checkLogSize l').
Proof.
  intros HT Hp.
  apply rotation_trigger_spec in HT as (_ & _ & (Hci & _) & _ & Hcnt).
  specialize (Hcnt Hp). rewrite Hcnt, Hci.
  split; [reflexivity|]. split.
  - intros Hpos. destruct (_ >=? _) eqn:E; [lia|].
    rewrite Z.geb_leb in E. apply Z.leb_gt in E. lia.
  - intros Hint Hinv.
    assert (Hw : wrap64 (writesSinceCheckRotate l + 1) = writesSinceCheckRotate l + 1).
    { apply wrap64_small. unfold in_int, min_int, max_int in *. lia. }
    rewrite Hw. split; [reflexivity|].
    destruct (writesSinceCheckRotate l + 1 >=? checkLogSize l) eqn:E; [lia|].
    rewrite Z.geb_leb in E. apply Z.leb_gt in E. lia.
Qed.

(** C4. Every emit with a severity within the label sequence, on a logger
    whose per-level loggers are in place, returns normally.  On a
    file-backed logger the writes-since-check counter is incremented whether
    or not the message passed the filter, and is reset to zero in the call
    in which it reaches the check interval: for a positive interval the
    counter is below the interval after the call, and a counter that is
    between zero and the interval stays so.  On a logger with an empty file
    path the logger is unchanged, counter included, and the call does
    nothing beyond the write step. *)
Theorem write_counter (w : World) (l : Logger) (sev : LoghLevel) (call : emit_call) :
  wired l → 0 <= sev < len (levels l) →
  ∃ w' l',
    run_emit w (Some l) sev call = Done (w', Some l') ∧
    wired l' ∧ same_config l l' ∧
    (filePath l ≠ "" →
     writesSinceCheckRotate l' =
       (if wrap64 (writesSinceCheckRotate l + 1) >=? checkLogSize l then 0
        else wrap64 (writesSinceCheckRotate l + 1)) ∧
     (0 < checkLogSize l → writesSinceCheckRotate l' < checkLogSize l) ∧
     (in_int (checkLogSize l) →
      0 <= writesSinceCheckRotate l < checkLogSize l →
      wrap64 (writesSinceCheckRotate l + 1) = writesSinceCheckRotate l + 1 ∧
      0 <= writesSinceCheckRotate l' < checkLogSize l')) ∧
    (filePath l = "" →
     l' = l ∧ w' = emit_world w l sev (message call) ∧
     w_dir w' = w_dir w ∧ w_fds w' = w_fds w).
Proof.
  intros Hw Hr.
  rewrite (run_emit_in_range w l sev call Hw Hr). cbv zeta.
  destruct (rotation_trigger _ l) as [w' l'] eqn:HT.
  exists w', l'. split; [reflexivity|].
  pose proof (rotation_trigger_spec _ _ _ _ HT) as (_ & Hw' & Hc & Hempty & _).
  split; [auto|]. split; [exact Hc|]. split.
  - intros Hp. by eapply rotation_trigger_counter.
  - intros Hp. destruct (Hempty Hp) as [-> ->].
    split; [reflexivity|]. split; [reflexivity|].
    pose proof (emit_world_frame w l sev (message call)) as (Hd & Hf & _).
    by split.
Qed.

End WriteCounter.

Lemma write_counter_witness :
  ∃ w' l',
    run_emit demo_world (Some demo_logger) Debug demo_call = Done (w', Some l') ∧
    wired l' ∧ same_config demo_logger l' ∧
    (filePath demo_logger ≠ "" →
     writesSinceCheckRotate l' =
       (if wrap64 (writesSinceCheckRotate demo_logger + 1)
           >=? checkLogSize demo_logger then 0
        else wrap64 (writesSinceCheckRotate demo_logger + 1)) ∧
     (0 < checkLogSize demo_logger →
      writesSinceCheckRotate l' < checkLogSize demo_logger) ∧
     (in_int (checkLogSize demo_logger) →
      0 <= writesSinceCheckRotate demo_logger < checkLogSize demo_logger →
      wrap64 (writesSinceCheckRotate demo_logger + 1) =
        writesSinceCheckRotate demo_logger + 1 ∧
      0 <= writesSinceCheckRotate l' < checkLogSize l')) ∧
    (filePath demo_logger = "" →
     l' = demo_logger ∧
     w' = @emit_world plain demo_world demo_logger Debug (message demo_call) ∧
     w_dir w' = w_dir demo_world ∧ w_fds w' = w_fds demo_world).
Proof.
  apply (write_counter demo_world demo_logger Debug demo_call).
  - reflexivity.
  - vm_compute. split; [discriminate|reflexivity].
Defined.

(* ===================================================================== *)
(** ** Shutdown                                                           *)
(* ===================================================================== *)

Section ShutdownTwice.

(** C5, counterexample.  On the logger that [New] has just registered the
    first Shutdown returns nil and the second returns an error: the handle
    is still set and closing it again fails. *)
Lemma Shutdown_twice_counterexample :
  ∃ l, started_logger = Some l ∧
    (Shutdown started_world l).2 = None ∧
    (Shutdown_again started_world l).2 =
      Some (Errorf_v "closing log file, error:%v"
                     [Some (PathError "close" "" ErrClosed)]).
Proof. eexists. split; [vm_compute; reflexivity|]. split; reflexivity. Qed.

(** C5, as the code has it.  A second Shutdown always returns (no panic)
    and changes neither the world nor the logger.  It returns nil exactly
    when the logger holds no handle; when it holds one, which is the case
    for every logger that [New] registers, it returns the error of closing
    a handle that is already closed (or was never valid). *)
Theorem Shutdown_twice (w : World) (l : Logger) :
  ∃ w1 l1 e1,
    Shutdown w l = (w1, l1, e1) ∧
    Shutdown_again w l =
      (w1, l1,
       match file l with
       | None => None
       | Some f =>
           Some (Errorf_v "closing log file, error:%v"
                   [Some (PathError "close" ""
                            (match w_fds w !! f with
                             | Some _ => ErrClosed
                             | None => EINVAL
                             end))])
       end).
Proof.
  unfold Shutdown_again, Shutdown.
  cbn [file set_loggers loggers].
  assert (Hl : ∀ ls : list (option log_Logger),
            map (λ _ : option log_Logger, @None log_Logger)
                (map (λ _ : option log_Logger, @None log_Logger) ls)
            = map (λ _ : option log_Logger, @None log_Logger) ls).
  { intros ls. by rewrite map_map. }
  destruct (file l) as [f|] eqn:Hf.
  2:{ eexists _, _, _. split; [reflexivity|]. cbn [file set_loggers loggers].
      by rewrite Hf, Hl. }
  unfold Close. destruct (w_fds w !! f) as [d|] eqn:Hd.
  - destruct (fd_closed d) eqn:Hcl.
    + eexists _, _, _. split; [reflexivity|]. cbn [file set_loggers loggers].
      by rewrite Hf, Hd, Hcl, Hl.
    + eexists _, _, _. split; [reflexivity|].
      cbn [file set_loggers loggers w_fds]. rewrite Hf.
      rewrite list_lookup_insert_eq by (by eapply lookup_lt_Some).
      cbn [fd_closed]. by rewrite Hl.
  - eexists _, _, _. split; [reflexivity|]. cbn [file set_loggers loggers].
    by rewrite Hf, Hd, Hl.
Qed.

End ShutdownTwice.

(* ===================================================================== *)
(** ** Construction                                                       *)
(* ===================================================================== *)

Section Construction.

Context `{Collaborators}.

Lemma initializeRotation_shape (w w' : World) (l l' : Logger) (e : option error) :
  initializeRotation w l = (w', l', e) → ∃ r, l' = set_rotation l r.
Proof.
  rewrite initializeRotation_selects. destruct (both_full w l).
  - destruct (Remove w _) as [w1 e1]. intros [= <- <- <-]. by eexists.
  - intros [= <- <- <-]. by eexists.
Qed.

(** Every error return of [New] leaves the name without a logger. *)
Lemma New_failure (w w' : World) (Map Map' : gmap string Logger)
    (name filePath : string) (levels : list string) (level : LoghLevel)
    (flags checkLogSize maxLogSize : Z) (err : error) :
  New w Map name filePath levels level flags checkLogSize maxLogSize
    = (w', Map', Some err) →
  Map' = delete name Map ∧ Map' !! name = None.
Proof.
  unfold New. intros HN.
  assert (Map' = delete name Map) as ->; [|by rewrite lookup_delete_eq].
  revert HN. destruct (_ || _); [by intros [= _ <- _]|].
  destruct (MkdirAll _ _) as [w1 [e1|]]; [by intros [= _ <- _]|].
  destruct (initializeRotation w1 _) as [[w2 l2] [e2|]]; [by intros [= _ <- _]|].
  destruct (openFileAndInitialize w2 l2) as [[w3 l3] [e3|]];
    [by intros [= _ <- _]|discriminate].
Qed.

(** A successful [New] registers a logger with the requested settings,
    wired, with its counter at zero; the level was within the labels. *)
Lemma New_success (w w' : World) (Map Map' : gmap string Logger)
    (name filePath : string) (levels : list string) (level : LoghLevel)
    (flags checkLogSize maxLogSize : Z) :
  New w Map name filePath levels level flags checkLogSize maxLogSize
    = (w', Map', None) →
  0 <= level < len levels ∧
  ∃ l, Map' = <[name := l]> (delete name Map) ∧
    Logh.level l = level ∧ Logh.levels l = levels ∧
    Logh.filePath l = filePath ∧ Logh.checkLogSize l = checkLogSize ∧
    Logh.maxLogSize l = maxLogSize ∧
    wired l ∧ writesSinceCheckRotate l = 0 ∧ is_Some (file l).
Proof.
  unfold New.
  destruct (_ || _) eqn:Hlev; [discriminate|].
  apply orb_false_elim in Hlev as [Hlo Hhi].
  apply Z.ltb_ge in Hlo. rewrite Z.geb_leb in Hhi. apply Z.leb_gt in Hhi.
  destruct (MkdirAll _ _) as [w1 [e1|]]; [discriminate|].
  destruct (initializeRotation w1 _) as [[w2 l2] [e2|]] eqn:HI; [discriminate|].
  destruct (openFileAndInitialize w2 l2) as [[w3 l3] [e3|]] eqn:HO; [discriminate|].
  intros [= <- <-]. split; [lia|].
  apply initializeRotation_shape in HI as [r ->].
  apply openFileAndInitialize_spec in HO
    as (_ & Hw & (Hci & Hfl & Hlv & Hlvs & Hfp & Hms) & _ & Hz & Hfile).
  eexists. split; [reflexivity|]. cbn in *. by repeat split.
Qed.

(** When the selected path may not be opened, [openFileAndInitialize]
    falls back to [defaultOutput] and reports the failure. *)
Lemma openFileAndInitialize_denied (w : World) (l : Logger) :
  filePath l ≠ "" → file l = None →
  slot_path l (rotation l) ∈ w_denied w →
  ∃ l',
    openFileAndInitialize w l =
      (w, l', Some (Errorf_v "%v, opening log file, error:%v"
                      [None; Some (PathError "open" (slot_path l (rotation l))
                                             EACCES)])) ∧
    file l' = Some defaultOutput ∧ wired l'.
Proof.
  intros Hp Hf Hden. unfold openFileAndInitialize.
  cbn [filePath file set_writesSinceCheckRotate rotation].
  rewrite decide_False by exact Hp. rewrite Hf. cbv beta iota zeta.
  change (slot_path (set_writesSinceCheckRotate l 0) _)
    with (slot_path l (rotation l)).
  unfold OpenFile. rewrite decide_True by exact Hden.
  eexists. split; [reflexivity|]. by split.
Qed.

(** C8. [New] validates the initial level.  With a level that is negative
    or at least the number of labels it returns an error; whenever it
    returns an error no logger is registered under the name; and whenever it
    succeeds the logger registered under the name has the requested level,
    which lies within the bounds of its label sequence. *)
Theorem New_validates_level (w : World) (Map : gmap string Logger)
    (name filePath : string) (levels : list string) (level : LoghLevel)
    (flags checkLogSize maxLogSize : Z) :
  let r := New w Map name filePath levels level flags checkLogSize maxLogSize in
  (level < 0 ∨ len levels <= level →
   ∃ err, r.2 = Some err ∧ r.1.2 !! name = None) ∧
  (∀ err, r.2 = Some err → r.1.2 !! name = None) ∧
  (r.2 = None →
   ∃ l, r.1.2 !! name = Some l ∧ Logh.level l = level ∧ Logh.levels l = levels ∧
        0 <= Logh.level l < len (Logh.levels l)).
Proof.
  intros r. subst r.
  destruct (New w Map name filePath levels level flags checkLogSize maxLogSize)
    as [[w' Map'] e] eqn:HN. cbn [fst snd].
  split; [|split].
  - intros Hbad. destruct e as [err|].
    + exists err. split; [done|]. by eapply New_failure.
    + apply New_success in HN as [Hok _]. lia.
  - intros err ->. by eapply New_failure.
  - intros ->. apply New_success in HN
      as (Hok & l & -> & Hlv & Hlvs & _).
    exists l. rewrite lookup_insert_eq, Hlv, Hlvs. destruct Hok. by repeat split.
Qed.

End Construction.

(** C6.  In a process that may not open [app.log.0], [New] selects slot 0
    (no file exists), [openFileAndInitialize] prepares the fallback logger on
    [defaultOutput] and reports the failed open, and [New] returns that
    error before the assignment to [Map]: the name stays without a logger,
    and a later [Println] through [Map] reaches the nil logger and writes
    nothing. *)
Theorem New_open_failure :
  let r := @New plain locked_world ∅ "app" "app.log" DefaultLevels Info 0 10 1000 in
  let open_error :=
    Errorf_v "%v, opening log file, error:%v"
             [None; Some (PathError "open" "app.log.0" EACCES)] in
  r = (locked_world, ∅, Some open_error) ∧
  r.1.2 !! "app" = None ∧
  (∃ l, openFileAndInitialize locked_world fresh_logger
          = (locked_world, l, Some open_error) ∧
        file l = Some defaultOutput ∧ wired l) ∧
  @Println plain locked_world (r.1.2 !! "app") Info ["lost"]
    = Done (locked_world, None).
Proof.
  cbv zeta. split; [vm_compute; reflexivity|]. split; [vm_compute; reflexivity|].
  split; [|vm_compute; reflexivity].
  destruct (openFileAndInitialize_denied locked_world fresh_logger)
    as (l & HO & Hf & Hw).
  - discriminate.
  - reflexivity.
  - vm_compute. reflexivity.
  - exists l. by repeat split.
Qed.

(* ===================================================================== *)
(** ** Severities outside the label sequence, and the nil logger          *)
(* ===================================================================== *)

Section OutOfRange.

Context `{Collaborators}.

Lemma fmt_Printf_frame (w : World) (text : string) :
  let w' := fmt_Printf w text in
  w_dir w' = w_dir w ∧ w_fds w' = w_fds w ∧ w_denied w' = w_denied w ∧
  (∀ i, open_node w Stdout ≠ Some i → w_nodes w' !! i = w_nodes w !! i) ∧
  (∀ i c, open_node w Stdout = Some i → w_nodes w !! i = Some c →
          w_nodes w' !! i = Some (c +:+ text)).
Proof.
  unfold fmt_Printf.
  pose proof (Write_frame w Stdout text) as (Hd & Hf & Hden & _).
  split; [exact Hd|]. split; [exact Hf|]. split; [exact Hden|]. split.
  - intros i Hi. destruct (open_node w Stdout) as [j|] eqn:Ho.
    + apply (Write_other w Stdout text j i Ho). congruence.
    + unfold Write. by rewrite Ho.
  - intros i c Ho Hc. rewrite (Write_open w Stdout i c text Ho Hc). simpl.
    apply list_lookup_insert_eq. by eapply lookup_lt_Some.
Qed.

(** C7, as the code has it.  An emit whose severity is at or above the
    number of labels returns normally with the logger exactly as it was, and
    returns nothing to its caller.  Its only effect is a print to the
    standard output of the process: the text
    [input level was outside range, level:<severity>, len(levels)-1:<n-1>],
    without a newline, is appended there when standard output is open, and
    nothing at all changes when it is closed.  Directory, handles and every
    other content are unchanged. *)
Theorem severity_out_of_range (w : World) (l : Logger) (sev : LoghLevel)
    (call : emit_call) :
  len (levels l) <= sev →
  let text :=
    "input level was outside range, level:" +:+ Itoa sev
    +:+ ", len(levels)-1:" +:+ Itoa (len (levels l) - 1) in
  let w' := fmt_Printf w text in
  run_emit w (Some l) sev call = Done (w', Some l) ∧
  lines_in text = 0%nat ∧
  w_dir w' = w_dir w ∧ w_fds w' = w_fds w ∧
  (∀ i, open_node w Stdout ≠ Some i → w_nodes w' !! i = w_nodes w !! i) ∧
  (∀ i c, open_node w Stdout = Some i → w_nodes w !! i = Some c →
          w_nodes w' !! i = Some (c +:+ text)) ∧
  (open_node w Stdout = None → w' = w).
Proof.
  intros Hsev text w'. change text with (range_text sev l) in *.
  pose proof (fmt_Printf_frame w (range_text sev l)) as (Hd & Hf & _ & Ho & Hs).
  split; [|split; [apply lines_in_range_text|]].
  - destruct call as [format v|v]; unfold run_emit, Printf, Println, printCommon;
      by rewrite (geb_true sev (len (levels l))) by lia.
  - split; [exact Hd|]. split; [exact Hf|]. split; [exact Ho|].
    split; [exact Hs|]. intros Hc. subst w'. unfold fmt_Printf, Write.
    by rewrite Hc.
Qed.

(** C9. On the nil logger Printf and Println return at once: nothing is
    written, nothing changes, and there is no panic. *)
Theorem nil_logger (w : World) (sev : LoghLevel) (format : string) (v : list any) :
  Printf w None sev format v = Done (w, None) ∧
  Println w None sev v = Done (w, None).
Proof. split; reflexivity. Qed.

(** C10. On a logger whose threshold is not negative, as [New] guarantees,
    an emit with a negative severity returns normally without touching the
    per-level loggers: no content changes; a file-backed logger still has
    its counter incremented (and reset when it reaches the interval), a
    logger with an empty path is left as it was. *)
Theorem negative_severity (w : World) (l : Logger) (sev : LoghLevel)
    (call : emit_call) :
  0 <= level l → sev < 0 →
  ∃ w' l',
    run_emit w (Some l) sev call = Done (w', Some l') ∧
    grown (w_nodes w) (w_nodes w') ∧ same_config l l' ∧
    (filePath l ≠ "" →
     writesSinceCheckRotate l' =
       (if wrap64 (writesSinceCheckRotate l + 1) >=? checkLogSize l then 0
        else wrap64 (writesSinceCheckRotate l + 1))) ∧
    (filePath l = "" → w' = w ∧ l' = l).
Proof.
  intros Hlev Hsev.
  destruct (run_emit_printCommon w (Some l) sev call) as (format & v & _ & ->).
  rewrite printCommon_filtered by (unfold len; lia).
  destruct (rotation_trigger w l) as [w' l'] eqn:HT.
  exists w', l'. split; [reflexivity|].
  apply rotation_trigger_spec in HT as (Hg & _ & Hc & He & Hcnt).
  split; [exact Hg|]. split; [exact Hc|]. split; [exact Hcnt|exact He].
Qed.

End OutOfRange.

Lemma severity_out_of_range_witness :
  let text := "input level was outside range, level:5, len(levels)-1:4" in
  let w' := fmt_Printf demo_world text in
  run_emit demo_world (Some demo_logger) 5 demo_call = Done (w', Some demo_logger) ∧
  lines_in text = 0%nat ∧
  w_dir w' = w_dir demo_world ∧ w_fds w' = w_fds demo_world ∧
  (∀ i, open_node demo_world Stdout ≠ Some i →
        w_nodes w' !! i = w_nodes demo_world !! i) ∧
  (∀ i c, open_node demo_world Stdout = Some i → w_nodes demo_world !! i = Some c →
          w_nodes w' !! i = Some (c +:+ text)) ∧
  (open_node demo_world Stdout = None → w' = demo_world).
Proof.
  apply (severity_out_of_range demo_world demo_logger 5 demo_call).
  vm_compute. discriminate.
Defined.

(** C7, counterexample.  The call is not a no-op and reports nothing to its
    caller: on a logger with an empty file path, whose own output is
    standard output, an emit at severity 5 of 5 labels returns only the
    logger, unchanged, and leaves the text of the report in the logger's
    output, where the next record is appended to it on the same line. *)
Lemma severity_out_of_range_counterexample :
  file out_logger = Some defaultOutput ∧
  open_node boot defaultOutput = Some stdout_node ∧
  w_nodes boot !! stdout_node = Some "" ∧
  ∃ w1 w2,
    run_emit boot (Some out_logger) 5 demo_call = Done (w1, Some out_logger) ∧
    w_nodes w1 !! stdout_node
      = Some "input level was outside range, level:5, len(levels)-1:4" ∧
    run_emit w1 (Some out_logger) Debug demo_call = Done (w2, Some out_logger) ∧
    w_nodes w2 !! stdout_node
      = Some ("input level was outside range, level:5, len(levels)-1:4"
              +:+ "debug: disk full" +:+ nl).
Proof.
  split; [reflexivity|]. split; [reflexivity|]. split; [reflexivity|].
  eexists _, _. split; [vm_compute; reflexivity|].
  split; [vm_compute; reflexivity|]. split; vm_compute; reflexivity.
Qed.

Lemma negative_severity_witness :
  ∃ w' l',
    run_emit demo_world (Some demo_logger) (-1) demo_call = Done (w', Some l') ∧
    grown (w_nodes demo_world) (w_nodes w') ∧ same_config demo_logger l' ∧
    (filePath demo_logger ≠ "" →
     writesSinceCheckRotate l' =
       (if wrap64 (writesSinceCheckRotate demo_logger + 1)
           >=? checkLogSize demo_logger then 0
        else wrap64 (writesSinceCheckRotate demo_logger + 1))) ∧
    (filePath demo_logger = "" → w' = demo_world ∧ l' = demo_logger).
Proof.
  apply (negative_severity demo_world demo_logger (-1) demo_call).
  - vm_compute. discriminate.
  - reflexivity.
Defined.

(* ===================================================================== *)
(** ** From construction to a running logger                              *)
(* ===================================================================== *)

Section Running.

Context `{Collaborators}.

Lemma selected_slot_range (w : World) (l : Logger) :
  0 <= selected_slot w l < maxRotations.
Proof.
  unfold selected_slot, maxRotations.
  destruct (slot_available w l 0); [lia|].
  destruct (slot_available w l 1); lia.
Qed.

Lemma initializeRotation_range (w w' : World) (l l' : Logger) (e : option error) :
  initializeRotation w l = (w', l', e) →
  l' = set_rotation l (rotation l') ∧ 0 <= rotation l' < maxRotations ∧
  w_denied w' = w_denied w.
Proof.
  rewrite initializeRotation_selects. destruct (both_full w l).
  - destruct (Remove w _) as [w1 e1] eqn:HR. intros [= <- <- <-].
    split; [done|]. split; [done|].
    revert HR. unfold Remove. destruct (file_at w _); [case_decide|];
      by intros [= <- _].
  - intros [= <- <- <-]. split; [done|]. split; [|done].
    apply selected_slot_range.
Qed.

(** A successful open leaves the logger on an open handle whose inode is
    the file of the current slot. *)
Lemma openFileAndInitialize_opened (w w' : World) (l l' : Logger) :
  filePath l ≠ "" → file l = None →
  openFileAndInitialize w l = (w', l', None) →
  ∃ f node c,
    file l' = Some f ∧ open_node w' f = Some node ∧
    node_at w' (slot_path l' (rotation l')) = Some node ∧
    w_nodes w' !! node = Some c ∧
    file_at w' (slot_path l' (rotation l')) = Some c.
Proof.
  intros Hp Hf HO.
  destruct (decide (slot_path l (rotation l) ∈ w_denied w)) as [Hin|Hout].
  - destruct (openFileAndInitialize_denied w l Hp Hf Hin) as (l2 & HO2 & _).
    congruence.
  - destruct (openFileAndInitialize_fresh w l Hp Hf Hout)
      as (w2 & l2 & f & node & HO2 & Hfl & Hrot & _ & (_ & _ & _ & _ & Hfp & _)
          & _ & Hon & Hna & Hfa & _).
    rewrite HO in HO2. injection HO2 as <- <-.
    apply file_at_Some in Hfa as Hfa'. destruct Hfa' as (i & Hni & Hi).
    assert (i = node) as -> by congruence.
    exists f, node, (default "" (file_at w (slot_path l (rotation l)))).
    split; [done|]. split; [done|].
    assert (Hpath : slot_path l' (rotation l') = slot_path l (rotation l))
      by (unfold slot_path; by rewrite Hfp, Hrot).
    rewrite Hpath. by split_and!.
Qed.

(** X15. Every file-backed logger that [New] registers satisfies what the
    theorems on emits assume: it is wired, the slot is 0 or 1, the counter is
    zero, and its handle is open on the very inode that the path of its slot
    names, so that what is written through the handle is what the file
    holds. *)
Lemma New_running (w w' : World) (Map Map' : gmap string Logger)
    (name filePath : string) (levels : list string) (level : LoghLevel)
    (flags checkLogSize maxLogSize : Z) :
  filePath ≠ "" →
  New w Map name filePath levels level flags checkLogSize maxLogSize
    = (w', Map', None) →
  ∃ l f node c,
    Map' !! name = Some l ∧ wired l ∧ writesSinceCheckRotate l = 0 ∧
    0 <= Logh.level l < len (Logh.levels l) ∧
    0 <= rotation l < maxRotations ∧
    file l = Some f ∧ open_node w' f = Some node ∧
    node_at w' (slot_path l (rotation l)) = Some node ∧
    w_nodes w' !! node = Some c ∧
    file_at w' (slot_path l (rotation l)) = Some c.
Proof.
  intros Hp HN. pose proof (New_success _ _ _ _ _ _ _ _ _ _ _ HN)
    as (Hok & l0 & -> & Hlv & Hlvs & _ & _ & _ & Hw0 & Hz0 & _).
  revert HN. unfold New.
  destruct (_ || _); [discriminate|].
  destruct (MkdirAll _ _) as [w1 [e1|]]; [discriminate|].
  destruct (initializeRotation w1 _) as [[w2 l2] [e2|]] eqn:HI; [discriminate|].
  destruct (openFileAndInitialize w2 l2) as [[w3 l3] [e3|]] eqn:HO; [discriminate|].
  intros [= <- Hmap].
  apply initializeRotation_range in HI as (Hl2 & Hrot & _).
  assert (Hp2 : Logh.filePath l2 ≠ "") by (by rewrite Hl2).
  assert (Hf2 : file l2 = None) by (by rewrite Hl2).
  pose proof (openFileAndInitialize_spec _ _ _ _ _ HO) as (_ & Hw & _ & Hr3 & Hz & _).
  destruct (openFileAndInitialize_opened w2 w3 l2 l3 Hp2 Hf2 HO)
    as (f & node & c & Hfl & Hon & Hna & Hc & Hfa).
  assert (Hl0 : l0 = set_levelMaxWidth l3 (maxWidth (Logh.levels l3))).
  { apply (f_equal (λ m : gmap string Logger, m !! name)) in Hmap.
    rewrite !lookup_insert_eq in Hmap. congruence. }
  exists l0, f, node, c. split; [apply lookup_insert_eq|].
  split; [exact Hw0|]. split; [exact Hz0|].
  split; [by rewrite Hlv, Hlvs|].
  rewrite Hl0. cbn [set_levelMaxWidth rotation file].
  split; [by rewrite Hr3|]. by repeat split.
Qed.

(** X16. Over any sequence of emits with severities within the labels, on
    a wired file-backed logger with a positive check interval, no call
    panics, the logger stays wired, the fields fixed at construction keep
    their values and the counter stays between zero and the interval. *)
Lemma run_emits_counter (calls : list (LoghLevel * emit_call)) :
  ∀ (w : World) (l : Logger),
    wired l → filePath l ≠ "" → in_int (checkLogSize l) →
    0 <= writesSinceCheckRotate l < checkLogSize l →
    Forall (λ sc, 0 <= sc.1 < len (levels l)) calls →
    ∃ w' l',
      run_emits w l calls = Done (w', l') ∧ wired l' ∧ same_config l l' ∧
      0 <= writesSinceCheckRotate l' < checkLogSize l'.
Proof.
  induction calls as [|[sev c] rest IH]; intros w l Hw Hp Hint Hinv Hall.
  - exists w, l. split; [reflexivity|]. split; [done|].
    split; [apply same_config_refl|done].
  - apply Forall_cons in Hall as [Hsev Hrest]. cbn [fst] in Hsev.
    cbn [run_emits]. rewrite (run_emit_in_range w l sev c Hw Hsev). cbv zeta.
    destruct (rotation_trigger _ l) as [w1 l1] eqn:HT. cbn [fst snd].
    pose proof (rotation_trigger_spec _ _ _ _ HT) as (_ & Hw1 & Hc1 & _).
    pose proof (rotation_trigger_counter _ _ _ _ HT Hp) as (_ & _ & Hcnt).
    destruct (Hcnt Hint Hinv) as [_ Hinv1].
    pose proof Hc1 as (Hci & _ & _ & Hlvs & Hfp & _).
    destruct (IH w1 l1) as (w' & l' & HR & Hw' & Hc' & Hinv').
    + auto.
    + by rewrite Hfp.
    + by rewrite Hci.
    + exact Hinv1.
    + by rewrite Hlvs.
    + exists w', l'. split; [exact HR|]. split; [exact Hw'|].
      split; [by eapply same_config_trans|exact Hinv'].
Qed.

(** The scenario of the specification: threshold [Info], one message at
    each of the five levels; the file holds four lines, [debug] absent, in
    the order info, warning, audit, error. *)
Example five_levels_at_info :
  ∃ l w' l',
    started_logger = Some l ∧
    run_emits started_world l five_levels = Done (w', l') ∧
    file_at w' "app.log.0" =
      Some ("info: i" +:+ nl +:+ "warning: w" +:+ nl +:+ "audit: a" +:+ nl
            +:+ "error: e" +:+ nl).
Proof.
  eexists _, _, _. split; [vm_compute; reflexivity|].
  split; vm_compute; reflexivity.
Qed.

(** The rotation test of the package: two records fill slot 0, the next
    two go to slot 1, and the fifth finds slot 0 emptied. *)
Example rotation_scenario :
  let rec := "debug: 0-12345678901234567890123456789012345678901234567890" +:+ nl in
  rotated_files 1 = Some (Some rec, None) ∧
  rotated_files 2 = Some (Some (rec +:+ rec), Some "") ∧
  rotated_files 3 = Some (Some (rec +:+ rec), Some rec) ∧
  rotated_files 4 = Some (Some "", Some (rec +:+ rec)) ∧
  rotated_files 5 = Some (Some rec, Some (rec +:+ rec)).
Proof. vm_compute. repeat split. Qed.

End Running.

(* ===================================================================== *)
(** ** Shutdown and ShutdownAll                                           *)
(* ===================================================================== *)

Section ShutdownFacts.

Context `{Collaborators}.

Lemma Close_effect (w w' : World) (f : File) (e : option error) :
  Close w f = (w', e) →
  open_node w' f = None ∧
  (∀ g, g ≠ f → open_node w' g = open_node w g) ∧
  (e = None ↔ is_Some (open_node w f)) ∧
  w_dir w' = w_dir w ∧ w_nodes w' = w_nodes w ∧ w_denied w' = w_denied w ∧
  length (w_fds w') = length (w_fds w).
Proof.
  unfold Close, open_node. destruct (w_fds w !! f) as [d|] eqn:Hd.
  - destruct (fd_closed d) eqn:Hc; intros [= <- <-]; simpl.
    + rewrite Hd, Hc. split_and!; first [done|split; [done|by intros [? ?]]].
    + rewrite list_lookup_insert_eq by (by eapply lookup_lt_Some). simpl.
      rewrite length_insert.
      split_and!;
        first [done
              |intros g Hg; by rewrite list_lookup_insert_ne
              |split; [by eexists|done]].
  - intros [= <- <-]. rewrite Hd.
    split_and!; first [done|split; [done|by intros [? ?]]].
Qed.

Lemma Shutdown_effect (w w' : World) (l l' : Logger) (e : option error) :
  Shutdown w l = (w', l', e) →
  l' = set_loggers l (map (λ _, None) (loggers l)) ∧
  w_dir w' = w_dir w ∧ w_nodes w' = w_nodes w ∧ w_denied w' = w_denied w ∧
  length (w_fds w') = length (w_fds w) ∧
  match file l with
  | None => w' = w ∧ e = None
  | Some f =>
      open_node w' f = None ∧
      (∀ g, g ≠ f → open_node w' g = open_node w g) ∧
      (e = None ↔ is_Some (open_node w f))
  end.
Proof.
  unfold Shutdown. cbn [file set_loggers].
  destruct (file l) as [f|]; [|by intros [= <- <- <-]].
  destruct (Close w f) as [w1 e1] eqn:HC.
  apply Close_effect in HC as (Hf & Hg & He & Hd & Hn & Hden & Hlen).
  destruct e1 as [err|]; intros [= <- <- <-];
    split_and!;
    first [done
          |split; [discriminate|intros Hs; apply He in Hs; discriminate]
          |split; [intros _; by apply He|done]].
Qed.

(** X1. Shutdown sets every per-level logger to nil and closes the handle
    the logger holds; directory, file contents and every other handle are
    as before.  It returns nil exactly when the logger holds no handle or
    the handle was open. *)
Theorem Shutdown_closes_handle (w : World) (l : Logger) :
  ∃ w' e,
    Shutdown w l = (w', set_loggers l (map (λ _, None) (loggers l)), e) ∧
    w_dir w' = w_dir w ∧ w_nodes w' = w_nodes w ∧
    (∀ f, file l = Some f →
          open_node w' f = None ∧ ∀ g, g ≠ f → open_node w' g = open_node w g) ∧
    (file l = None → w' = w) ∧
    (e = None ↔ ∀ f, file l = Some f → is_Some (open_node w f)).
Proof.
  destruct (Shutdown w l) as [[w' l'] e] eqn:HS.
  apply Shutdown_effect in HS as (-> & Hd & Hn & _ & _ & Hf).
  exists w', e. split; [reflexivity|]. split; [exact Hd|]. split; [exact Hn|].
  destruct (file l) as [f|].
  - destruct Hf as (Hc & Hg & He). split; [by intros ? [= <-]|].
    split; [discriminate|]. rewrite He. split; [by intros ? ? [= <-]|eauto].
  - destruct Hf as [-> ->]. by repeat split.
Qed.

Lemma index_nil_loggers (ls : list (option log_Logger)) (sev : Z) :
  0 <= sev < len ls →
  index (map (λ _ : option log_Logger, @None log_Logger) ls) sev = Some None.
Proof.
  intros [H0 Hlt]. unfold index, len in *.
  rewrite (proj2 (Z.ltb_ge sev 0)) by lia.
  destruct (lookup_lt_is_Some_2 ls (Z.to_nat sev)) as [x Hx]; [lia|].
  by rewrite list_lookup_fmap, Hx.
Qed.

(** X2. After Shutdown the logger is not usable for messages that pass the
    filter: an emit with a severity within the labels and at or above the
    threshold panics on the nil per-level logger.  An emit below the
    threshold still returns. *)
Theorem emit_after_Shutdown (w : World) (l : Logger) (sev : LoghLevel)
    (call : emit_call) :
  wired l → 0 <= sev < len (levels l) →
  let w1 := (Shutdown w l).1.1 in
  let l1 := (Shutdown w l).1.2 in
  (level l <= sev →
   run_emit w1 (Some l1) sev call = Panic "nil pointer dereference") ∧
  (sev < level l →
   ∃ w' l', run_emit w1 (Some l1) sev call = Done (w', Some l')).
Proof.
  intros Hw Hr w1 l1.
  destruct (Shutdown w l) as [[w' l'] e] eqn:HS.
  apply Shutdown_effect in HS as (Hl & _). subst w1 l1. cbn [fst snd].
  destruct (run_emit_printCommon w' (Some l') sev call) as (format & v & _ & ->).
  subst l'. split.
  - intros Hge. unfold printCommon. cbn [levels level loggers set_loggers].
    rewrite (geb_false sev (len (levels l))) by lia.
    rewrite (geb_true sev (level l)) by lia.
    rewrite index_nil_loggers; [reflexivity|].
    rewrite Hw. unfold len in *. by rewrite length_map.
  - intros Hlt. rewrite printCommon_filtered by (cbn; lia). by eexists _, _.
Qed.

Lemma handles_of_cons (k : string) (rest : list string)
    (Map : gmap string Logger) (l : Logger) :
  Map !! k = Some l →
  handles_of (k :: rest) Map =
    match file l with
    | Some f => f :: handles_of rest Map
    | None => handles_of rest Map
    end.
Proof. intros Hk. unfold handles_of. cbn [omap list_omap]. by rewrite Hk. Qed.

Lemma handles_of_insert (k : string) (l : Logger) (rest : list string)
    (Map : gmap string Logger) :
  k ∉ rest → handles_of rest (<[k := l]> Map) = handles_of rest Map.
Proof.
  intros Hk. unfold handles_of. induction rest as [|k' rest IH]; [done|].
  apply not_elem_of_cons in Hk as [Hne Hk]. cbn [omap list_omap].
  rewrite lookup_insert_ne by done. by rewrite IH.
Qed.

Lemma handles_of_elem (order : list string) (Map : gmap string Logger)
    (k : string) (l : Logger) (f : File) :
  k ∈ order → Map !! k = Some l → file l = Some f → f ∈ handles_of order Map.
Proof.
  intros Hk Hl Hf. unfold handles_of. apply list_elem_of_omap.
  exists k. split; [done|]. by rewrite Hl.
Qed.

(** The loop of [ShutdownAll] over keys that are in the map, each once. *)
Lemma ShutdownAll_range_spec (keys : list string) :
  ∀ (w : World) (Map : gmap string Logger) (errOut : option error),
    NoDup keys → (∀ k, k ∈ keys → is_Some (Map !! k)) →
    ∃ w' Map' e,
      ShutdownAll_range keys w Map errOut = Done (w', Map', e) ∧
      w_dir w' = w_dir w ∧ w_nodes w' = w_nodes w ∧
      (∀ f, f ∈ handles_of keys Map → open_node w' f = None) ∧
      (∀ g, g ∉ handles_of keys Map → open_node w' g = open_node w g) ∧
      (e = None ↔
       errOut = None ∧ NoDup (handles_of keys Map) ∧
       ∀ f, f ∈ handles_of keys Map → is_Some (open_node w f)).
Proof.
  induction keys as [|k rest IH]; intros w Map errOut Hnd Hin.
  - exists w, Map, errOut. split; [reflexivity|]. split; [done|]. split; [done|].
    split; [by intros f Hf; apply elem_of_nil in Hf|]. split; [done|].
    split; [intros ->; split; [done|]; split; [constructor|]|by intros [? _]].
    by intros f Hf; apply elem_of_nil in Hf.
  - apply NoDup_cons in Hnd as [Hk Hnd].
    destruct (Hin k) as [l Hl]; [by left|].
    cbn [ShutdownAll_range]. rewrite Hl.
    destruct (Shutdown w l) as [[w1 l1] err] eqn:HS.
    apply Shutdown_effect in HS as (_ & Hd1 & Hn1 & _ & _ & Hfile).
    set (errOut1 := match err with Some e => _ | None => errOut end).
    destruct (IH w1 (<[k := l1]> Map) errOut1 Hnd)
      as (w' & Map' & e & HR & Hd & Hn & Hcl & Hoth & He).
    { intros k' Hk'. destruct (decide (k' = k)) as [->|Hne].
      - rewrite lookup_insert_eq. by eexists.
      - rewrite lookup_insert_ne by done. apply Hin. by right. }
    rewrite handles_of_insert in Hcl, Hoth, He by exact Hk.
    rewrite (handles_of_cons k rest Map l Hl).
    exists w', Map', e. split; [exact HR|].
    split; [by rewrite Hd|]. split; [by rewrite Hn|].
    destruct (file l) as [f|].
    + destruct Hfile as (Hf1 & Hg1 & Herr).
      assert (Herr1 : errOut1 = None ↔ errOut = None ∧ is_Some (open_node w f)).
      { subst errOut1. destruct err as [x|].
        - split; [discriminate|]. intros [_ Hs]. apply Herr in Hs. discriminate.
        - split; [intros ->; split; [done|by apply Herr]|by intros [? _]]. }
      split; [|split].
      * intros f' Hf'. destruct (decide (f' ∈ handles_of rest Map)) as [Hi|Hni].
        { by apply Hcl. }
        apply elem_of_cons in Hf' as [->|Hf']; [|done].
        by rewrite Hoth.
      * intros g Hg. apply not_elem_of_cons in Hg as [Hne Hg].
        rewrite Hoth by done. by apply Hg1.
      * rewrite He, Herr1. split.
        { intros ((Hno & Hopen) & Hnd' & Hall).
          assert (Hfr : f ∉ handles_of rest Map).
          { intros Hi. apply Hall in Hi as [x Hx]. congruence. }
          split; [done|]. split; [by constructor|].
          intros f' Hf'. apply elem_of_cons in Hf' as [->|Hf']; [done|].
          rewrite <- Hg1; [by apply Hall|]. by intros ->. }
        { intros (Hno & Hnd' & Hall). apply NoDup_cons in Hnd' as [Hfr Hnd'].
          split; [split; [done|apply Hall; by left]|]. split; [done|].
          intros f' Hf'. rewrite Hg1; [apply Hall; by right|]. by intros ->. }
    + destruct Hfile as [-> ->]. subst errOut1.
      split; [exact Hcl|]. split; [exact Hoth|exact He].
Qed.

(** X3. ShutdownAll shuts down every registered logger, whatever the order
    of the visit and whether or not an earlier one failed: afterwards no
    handle of a registered logger is open, every other handle, the directory
    and the file contents are as before, and the registry is empty.  It
    returns nil exactly when the handles of the registered loggers were all
    open and pairwise distinct. *)
Theorem ShutdownAll_closes_all (order : list string) (w : World)
    (Map : gmap string Logger) :
  NoDup order → (∀ k, k ∈ order ↔ is_Some (Map !! k)) →
  ∃ w' e,
    ShutdownAll order w Map = Done (w', ∅, e) ∧
    w_dir w' = w_dir w ∧ w_nodes w' = w_nodes w ∧
    (∀ k l f, Map !! k = Some l → file l = Some f → open_node w' f = None) ∧
    (∀ g, g ∉ handles_of order Map → open_node w' g = open_node w g) ∧
    (e = None ↔
     NoDup (handles_of order Map) ∧
     ∀ f, f ∈ handles_of order Map → is_Some (open_node w f)).
Proof.
  intros Hnd Hkeys.
  destruct (ShutdownAll_range_spec order w Map None Hnd)
    as (w' & Map' & e & HR & Hd & Hn & Hcl & Hoth & He).
  { intros k Hk. by apply Hkeys. }
  unfold ShutdownAll. rewrite HR. exists w', e.
  split; [reflexivity|]. split; [exact Hd|]. split; [exact Hn|].
  split; [|split; [exact Hoth|]].
  - intros k l f Hl Hf. apply Hcl. eapply handles_of_elem; eauto.
    apply Hkeys. by eexists.
  - rewrite He. split; [by intros (_ & ? & ?)|by intros [? ?]].
Qed.

(** X4. Two loggers registered under different names that hold the same
    handle, as any two loggers created with an empty file path do (both
    hold [defaultOutput]), make ShutdownAll return an error in every order
    of the visit: the second close of the shared handle fails. *)
Theorem ShutdownAll_shared_handle (order : list string) (w : World)
    (Map : gmap string Logger) (a b : string) (la lb : Logger) (f : File) :
  NoDup order → (∀ k, k ∈ order ↔ is_Some (Map !! k)) →
  a ≠ b → Map !! a = Some la → Map !! b = Some lb →
  file la = Some f → file lb = Some f →
  ∃ w' err, ShutdownAll order w Map = Done (w', ∅, Some err).
Proof.
  intros Hnd Hkeys Hab Ha Hb Hfa Hfb.
  destruct (ShutdownAll_range_spec order w Map None Hnd)
    as (w' & Map' & e & HR & _ & _ & _ & _ & He).
  { intros k Hk. by apply Hkeys. }
  unfold ShutdownAll. rewrite HR. destruct e as [err|]; [by eexists _, _|].
  exfalso. destruct He as [He _]. destruct (He eq_refl) as (_ & Hdup & _).
  assert (Hina : a ∈ order) by (apply Hkeys; by eexists).
  assert (Hinb : b ∈ order) by (apply Hkeys; by eexists).
  apply list_elem_of_split in Hina as (pre & post & ->).
  assert (Hb' : b ∈ pre ∨ b ∈ post).
  { apply elem_of_app in Hinb as [?|Hc]; [by left|].
    apply elem_of_cons in Hc as [?|?]; [congruence|by right]. }
  unfold handles_of in Hdup. rewrite omap_app in Hdup. cbn [omap list_omap] in Hdup.
  rewrite Ha in Hdup. cbn in Hdup. rewrite Hfa in Hdup.
  apply NoDup_app in Hdup as (_ & Hdis & Hright).
  apply NoDup_cons in Hright as [Hnot _].
  destruct Hb' as [Hpre|Hpost].
  - apply (Hdis f); [|by left]. apply list_elem_of_omap. exists b.
    split; [done|]. by rewrite Hb.
  - apply Hnot. apply list_elem_of_omap. exists b. split; [done|]. by rewrite Hb.
Qed.

End ShutdownFacts.

Lemma emit_after_Shutdown_witness :
  let w1 := (Shutdown demo_world demo_logger).1.1 in
  let l1 := (Shutdown demo_world demo_logger).1.2 in
  (level demo_logger <= Warning →
   run_emit w1 (Some l1) Warning demo_call = Panic "nil pointer dereference") ∧
  (Warning < level demo_logger →
   ∃ w' l', run_emit w1 (Some l1) Warning demo_call = Done (w', Some l')).
Proof.
  apply (emit_after_Shutdown demo_world demo_logger Warning demo_call).
  - reflexivity.
  - vm_compute. split; [discriminate|reflexivity].
Defined.

Lemma ShutdownAll_closes_all_witness :
  ∃ w' e,
    ShutdownAll ["app"] demo_world {["app" := demo_logger]} = Done (w', ∅, e) ∧
    w_dir w' = w_dir demo_world ∧ w_nodes w' = w_nodes demo_world ∧
    (∀ k l f, ({["app" := demo_logger]} : gmap string Logger) !! k = Some l →
              file l = Some f → open_node w' f = None) ∧
    (∀ g, g ∉ handles_of ["app"] {["app" := demo_logger]} →
          open_node w' g = open_node demo_world g) ∧
    (e = None ↔
     NoDup (handles_of ["app"] {["app" := demo_logger]}) ∧
     ∀ f, f ∈ handles_of ["app"] {["app" := demo_logger]} →
          is_Some (open_node demo_world f)).
Proof.
  apply (ShutdownAll_closes_all ["app"] demo_world {["app" := demo_logger]}).
  - apply NoDup_singleton.
  - intros k. split.
    + intros Hk. apply list_elem_of_singleton in Hk as ->.
      rewrite lookup_singleton_eq. by eexists.
    + intros [x Hx]. apply lookup_singleton_Some in Hx as [<- _].
      apply list_elem_of_singleton. reflexivity.
Defined.

Lemma ShutdownAll_shared_handle_witness :
  ∃ w' err, ShutdownAll ["a"; "b"] boot two_out = Done (w', ∅, Some err).
Proof.
  apply (ShutdownAll_shared_handle ["a"; "b"] boot two_out "a" "b"
           out_logger out_logger defaultOutput).
  - apply NoDup_cons. split; [|apply NoDup_singleton].
    intros Hin. apply list_elem_of_singleton in Hin. discriminate.
  - intros k. unfold two_out. split.
    + intros Hk. apply elem_of_cons in Hk as [->|Hk].
      * rewrite lookup_insert_eq. by eexists.
      * apply list_elem_of_singleton in Hk as ->.
        rewrite lookup_insert_ne by discriminate.
        rewrite lookup_singleton_eq. by eexists.
    + intros [x Hx]. destruct (decide (k = "a")) as [->|Hne]; [by left|].
      rewrite lookup_insert_ne in Hx by done.
      apply lookup_singleton_Some in Hx as [<- _]. right. by left.
  - discriminate.
  - reflexivity.
  - reflexivity.
  - reflexivity.
  - reflexivity.
Defined.

(* ===================================================================== *)
(** ** More on construction                                               *)
(* ===================================================================== *)

Section NewFacts.

Context `{Collaborators}.

Lemma file_at_ext (w w' : World) (p : string) :
  w_dir w' = w_dir w → w_nodes w' = w_nodes w → file_at w' p = file_at w p.
Proof. intros Hd Hn. unfold file_at, node_at. by rewrite Hd, Hn. Qed.

Lemma both_full_ext (w w' : World) (l : Logger) :
  w_dir w' = w_dir w → w_nodes w' = w_nodes w → both_full w' l = both_full w l.
Proof.
  intros Hd Hn. unfold both_full, slot_available.
  by rewrite !(file_at_ext w w') by done.
Qed.

Lemma selected_slot_ext (w w' : World) (l : Logger) :
  w_dir w' = w_dir w → w_nodes w' = w_nodes w →
  selected_slot w' l = selected_slot w l.
Proof.
  intros Hd Hn. unfold selected_slot, slot_available.
  by rewrite !(file_at_ext w w') by done.
Qed.

(** Shutting down the previous logger changes handles only. *)
Lemma before_New_fs (w : World) (Map : gmap string Logger) (name : string) :
  let w0 := before_New w Map name in
  w_dir w0 = w_dir w ∧ w_nodes w0 = w_nodes w ∧ w_denied w0 = w_denied w ∧
  length (w_fds w0) = length (w_fds w) ∧
  (∀ old f, Map !! name = Some old → file old = Some f →
            open_node w0 f = None ∧ ∀ g, g ≠ f → open_node w0 g = open_node w g) ∧
  (Map !! name = None → w0 = w).
Proof.
  unfold before_New. destruct (Map !! name) as [old|]; [|done].
  destruct (Shutdown w old) as [[w1 l1] e1] eqn:HS. cbn [fst].
  apply Shutdown_effect in HS as (_ & Hd & Hn & Hden & Hlen & Hf).
  split_and!; try done. intros old' f [= <-] Hfo. rewrite Hfo in Hf.
  by destruct Hf as (? & ? & _).
Qed.

(** [New], step by step. *)
Lemma New_unfold (w : World) (Map : gmap string Logger)
    (name filePath : string) (levels : list string) (level : LoghLevel)
    (flags checkLogSize maxLogSize : Z) :
  New w Map name filePath levels level flags checkLogSize maxLogSize =
    let w0 := before_New w Map name in
    let M := delete name Map in
    let l0 := New_logger filePath levels level flags checkLogSize maxLogSize in
    if (level <? 0) || (level >=? len levels) then
      (w0, M,
       Some (Errorf_d "input level was outside range, level:%d, len(levels)-1:%d"
                      [level; len levels - 1]))
    else if decide (filepath_Dir filePath ∈ w_denied w0) then
      (w0, M,
       Some (Errorf_v "creating log file directory, error:%v"
                      [Some (PathError "mkdir" (filepath_Dir filePath) EACCES)]))
    else
      match initializeRotation w0 l0 with
      | (w1, l1, Some err) => (w1, M, Some err)
      | (w1, l1, None) =>
          match openFileAndInitialize w1 l1 with
          | (w2, l2, Some err) => (w2, M, Some err)
          | (w2, l2, None) =>
              (w2, <[name := set_levelMaxWidth l2 (maxWidth (Logh.levels l2))]> M,
               None)
          end
      end.
Proof.
  unfold New, before_New, New_logger, MkdirAll. cbv zeta.
  destruct (_ || _); [reflexivity|]. by case_decide.
Qed.

Lemma openFileAndInitialize_empty (w : World) (l : Logger) :
  filePath l = "" →
  openFileAndInitialize w l =
    (w, initializeLoggers
          (set_file (set_writesSinceCheckRotate l 0) (Some defaultOutput)), None).
Proof.
  intros Hp. unfold openFileAndInitialize.
  cbn [filePath set_writesSinceCheckRotate]. by rewrite decide_True.
Qed.

(** Removing a file that exists. *)
Lemma Remove_existing (w : World) (p c : string) :
  file_at w p = Some c →
  Remove w p =
    if decide (p ∈ w_denied w) then (w, Some (PathError "remove" p EACCES))
    else (mkWorld (delete p (w_dir w)) (w_nodes w) (w_fds w) (w_denied w), None).
Proof. intros Hc. unfold Remove. by rewrite Hc. Qed.

Lemma both_full_slot0 (w : World) (l : Logger) :
  both_full w l = true →
  selected_slot w l = 0 ∧ ∃ c, file_at w (slot_path l 0) = Some c.
Proof.
  unfold both_full, selected_slot, slot_available.
  destruct (file_at w (slot_path l 0)) as [c0|]; [|done].
  destruct (strlen c0 <? maxLogSize l); [done|].
  destruct (file_at w (slot_path l 1)) as [c1|]; [|done].
  destruct (strlen c1 <? maxLogSize l); [done|]. intros _. by eauto.
Qed.

(** X5. [New] succeeds exactly when the level is within the labels, the
    directory of the path can be created, and the path of the selected slot
    may be used: it must be permitted whenever it is opened (non-empty file
    path) or removed (both rotation files at or over the maximum).  In every
    other case [New] returns an error. *)
Theorem New_succeeds_iff (w : World) (Map : gmap string Logger)
    (name filePath : string) (levels : list string) (level : LoghLevel)
    (flags checkLogSize maxLogSize : Z) :
  let l0 := New_logger filePath levels level flags checkLogSize maxLogSize in
  let p := slot_path l0 (selected_slot w l0) in
  snd (New w Map name filePath levels level flags checkLogSize maxLogSize) = None ↔
  ((0 <= level < len levels) ∧
   (filepath_Dir filePath ∉ w_denied w) ∧
   (filePath ≠ "" ∨ both_full w l0 = true → p ∉ w_denied w)).
Proof.
  intros l0 p. rewrite New_unfold. cbv zeta. fold l0.
  pose proof (before_New_fs w Map name) as (Hd & Hn & Hden & _).
  set (w0 := before_New w Map name) in *.
  destruct ((level <? 0) || (level >=? len levels)) eqn:Hlev.
  { cbn [snd]. split; [discriminate|]. intros ([H0 Hlt] & _).
    apply orb_true_iff in Hlev as [Hlo|Hhi].
    - apply Z.ltb_lt in Hlo. lia.
    - rewrite Z.geb_leb in Hhi. apply Z.leb_le in Hhi. lia. }
  apply orb_false_elim in Hlev as [Hlo Hhi].
  apply Z.ltb_ge in Hlo. rewrite Z.geb_leb in Hhi. apply Z.leb_gt in Hhi.
  rewrite Hden. case_decide as Hdir.
  { cbn [snd]. split; [discriminate|]. by intros (_ & ? & _). }
  rewrite initializeRotation_selects.
  rewrite (both_full_ext w w0), (selected_slot_ext w w0) by done.
  fold p.
  assert (Hopen : ∀ w1 r,
            w_denied w1 = w_denied w → slot_path l0 r = p →
            ((match openFileAndInitialize w1 (set_rotation l0 r) with
              | (w2, l2, Some err) => (w2, delete name Map, Some err)
              | (w2, l2, None) =>
                  (w2, <[name := set_levelMaxWidth l2 (maxWidth (Logh.levels l2))]>
                         (delete name Map), None)
              end).2 = None ↔ (filePath ≠ "" → p ∉ w_denied w))).
  { intros w1 r Hden1 Hr.
    destruct (decide (filePath = "")) as [Hp|Hp].
    - rewrite openFileAndInitialize_empty by exact Hp. cbn [snd]. by split.
    - destruct (decide (p ∈ w_denied w)) as [Hin|Hout].
      + destruct (openFileAndInitialize_denied w1 (set_rotation l0 r))
          as (l2 & -> & _); [exact Hp|reflexivity| |].
        { change (slot_path (set_rotation l0 r) _) with (slot_path l0 r).
          by rewrite Hr, Hden1. }
        cbn [snd]. split; [discriminate|]. intros Hno. by destruct (Hno Hp).
      + destruct (openFileAndInitialize_fresh w1 (set_rotation l0 r))
          as (w2 & l2 & f & node & -> & _); [exact Hp|reflexivity| |].
        { change (slot_path (set_rotation l0 r) _) with (slot_path l0 r).
          by rewrite Hr, Hden1. }
        cbn [snd]. by split. }
  destruct (both_full w l0) eqn:Hfull.
  - destruct (both_full_slot0 w l0 Hfull) as (Hslot & c & Hc).
    assert (Hp0 : slot_path l0 0 = p) by (subst p; by rewrite Hslot).
    rewrite (Remove_existing w0 (slot_path l0 0) c)
      by (by rewrite (file_at_ext w w0)).
    rewrite Hden, Hp0. case_decide as Hin; cbv beta iota zeta.
    + cbn [snd]. split; [discriminate|]. intros (_ & _ & Hno).
      destruct Hno; [by right|done].
    + match goal with
      | |- context [openFileAndInitialize ?w1 _] => rewrite (Hopen w1 0 eq_refl Hp0)
      end.
      split.
      * intros _. split; [lia|]. by split.
      * by intros _ _.
  - cbv beta iota zeta. rewrite (Hopen w0 _ Hden eq_refl). split.
    + intros Hno. split; [lia|]. split; [done|]. intros [Hp|?]; [auto|done].
    + intros (_ & _ & Hno) Hp. apply Hno. by left.
Qed.

Lemma initializeRotation_fds (w w' : World) (l l' : Logger) (e : option error) :
  initializeRotation w l = (w', l', e) →
  w_fds w' = w_fds w ∧ w_nodes w' = w_nodes w ∧ file l' = file l ∧
  filePath l' = filePath l.
Proof.
  rewrite initializeRotation_selects. destruct (both_full w l).
  - destruct (Remove w _) as [w1 e1] eqn:HR. apply Remove_nodes in HR as [Hn Hf].
    by intros [= <- <- <-].
  - by intros [= <- <- <-].
Qed.

Lemma openFileAndInitialize_fresh_fds (w w' : World) (l l' : Logger)
    (e : option error) :
  file l = None → openFileAndInitialize w l = (w', l', e) →
  ∃ extra, w_fds w' = w_fds w ++ extra.
Proof.
  intros Hf. unfold openFileAndInitialize.
  cbn [filePath file set_writesSinceCheckRotate]. case_decide.
  { intros [= <- _ _]. exists []. by rewrite app_nil_r. }
  rewrite Hf. cbv beta iota zeta. unfold OpenFile. case_decide.
  { intros [= <- _ _]. exists []. by rewrite app_nil_r. }
  destruct (node_at w _); intros [= <- _ _]; by eexists.
Qed.

(** Whatever [New] returns, the handles that existed before are in the
    state in which the shutdown of the previous logger left them. *)
Lemma New_old_handles (w : World) (Map : gmap string Logger)
    (name filePath : string) (levels : list string) (level : LoghLevel)
    (flags checkLogSize maxLogSize : Z) (g : File) :
  is_Some (w_fds w !! g) →
  open_node (New w Map name filePath levels level flags checkLogSize maxLogSize).1.1 g
  = open_node (before_New w Map name) g.
Proof.
  intros Hg. rewrite New_unfold. cbv zeta.
  pose proof (before_New_fs w Map name) as (_ & _ & _ & Hlen & _).
  set (w0 := before_New w Map name) in *.
  assert (Hlt : (g < length (w_fds w0))%nat).
  { rewrite Hlen. destruct Hg as [d Hd]. by eapply lookup_lt_Some. }
  destruct (_ || _); [done|]. case_decide; [done|].
  destruct (initializeRotation w0 _) as [[w1 l1] e1] eqn:HI.
  apply initializeRotation_fds in HI as (Hf1 & _ & Hfile & _).
  assert (Hstep : ∀ w2 l2 e2, openFileAndInitialize w1 l1 = (w2, l2, e2) →
            open_node w2 g = open_node w0 g).
  { intros w2 l2 e2 HO.
    apply openFileAndInitialize_fresh_fds in HO as [extra Hex]; [|by rewrite Hfile].
    unfold open_node. rewrite Hex, Hf1. by rewrite lookup_app_l. }
  destruct e1 as [err|].
  { cbn [fst]. unfold open_node. by rewrite Hf1. }
  destruct (openFileAndInitialize w1 l1) as [[w2 l2] e2] eqn:HO.
  specialize (Hstep _ _ _ eq_refl). by destruct e2.
Qed.

(** X6. [New] under a name that is taken shuts the registered logger down
    first: whatever [New] then returns, success or error, the handle of the
    previous logger is closed, every other handle that existed is in the
    state it was in, and the registry holds under every other name the
    logger value it held.  A logger under another name that holds the same
    handle, as two loggers with an empty file path do, is thereby left
    registered on a closed handle. *)
Theorem New_replaces_logger (w : World) (Map : gmap string Logger)
    (name filePath : string) (levels : list string) (level : LoghLevel)
    (flags checkLogSize maxLogSize : Z) (old : Logger) (f : File) :
  Map !! name = Some old → file old = Some f → is_Some (w_fds w !! f) →
  let r := New w Map name filePath levels level flags checkLogSize maxLogSize in
  open_node r.1.1 f = None ∧
  (∀ g, g ≠ f → is_Some (w_fds w !! g) → open_node r.1.1 g = open_node w g) ∧
  (∀ other, other ≠ name → r.1.2 !! other = Map !! other) ∧
  (∀ other l', other ≠ name → Map !! other = Some l' → file l' = Some f →
               r.1.2 !! other = Some l' ∧ file l' = Some f ∧
               open_node r.1.1 f = None).
Proof.
  intros Hold Hf Hvalid r.
  pose proof (before_New_fs w Map name) as (_ & _ & _ & _ & Hcl & _).
  destruct (Hcl old f Hold Hf) as [Hclosed Hothers].
  assert (Hf' : open_node r.1.1 f = None).
  { subst r. by rewrite New_old_handles by exact Hvalid. }
  assert (Hreg : ∀ other, other ≠ name → r.1.2 !! other = Map !! other).
  { intros other Hne. subst r.
    destruct (New w Map name filePath levels level flags checkLogSize maxLogSize)
      as [[w' Map'] [err|]] eqn:HN; cbn [fst snd].
    - apply New_failure in HN as [-> _]. by rewrite lookup_delete_ne.
    - apply New_success in HN as (_ & l & -> & _).
      rewrite lookup_insert_ne by done. by rewrite lookup_delete_ne. }
  split; [exact Hf'|]. split; [|split; [exact Hreg|]].
  - intros g Hg Hv. subst r. rewrite New_old_handles by exact Hv. by apply Hothers.
  - intros other l' Hne Hl' Hfl'. rewrite Hreg by done. by split_and!.
Qed.

(** A record for a handle that is not open is dropped: the world is as
    before. *)
Lemma emit_world_closed (w : World) (l : Logger) (sev : LoghLevel) (s : string)
    (f : File) :
  file l = Some f → open_node w f = None → emit_world w l sev s = w.
Proof.
  intros Hf Hc. unfold emit_world. destruct (sev >=? level l); [|done].
  destruct (levels l !! Z.to_nat sev); [|done].
  unfold log_Output. cbn [lg_out]. rewrite Hf. unfold Write. by rewrite Hc.
Qed.

(** X7. Replacing a logger on standard output by another one on standard
    output, which is how the level of a running logger is changed, silences
    it.  [New] closes [defaultOutput] with the old logger and the new logger
    holds the same, now closed, handle: every emit on it with a severity
    within the labels returns normally and changes nothing, the record is
    lost. *)
Theorem replaced_stdout_logger_is_silent (w w' : World)
    (Map Map' : gmap string Logger) (name : string) (levels : list string)
    (level : LoghLevel) (flags checkLogSize maxLogSize : Z) (old : Logger) :
  Map !! name = Some old → file old = Some defaultOutput →
  is_Some (w_fds w !! defaultOutput) →
  New w Map name "" levels level flags checkLogSize maxLogSize = (w', Map', None) →
  ∃ l, Map' !! name = Some l ∧ file l = Some defaultOutput ∧
       open_node w' defaultOutput = None ∧
       ∀ sev call, 0 <= sev < len (Logh.levels l) →
                   run_emit w' (Some l) sev call = Done (w', Some l).
Proof.
  intros Hold Hfo Hvalid HN.
  pose proof (New_old_handles w Map name "" levels level flags checkLogSize
                maxLogSize defaultOutput Hvalid) as Hh.
  rewrite HN in Hh. cbn [fst] in Hh.
  pose proof (before_New_fs w Map name) as (_ & _ & _ & _ & Hcl & _).
  destruct (Hcl old _ Hold Hfo) as [Hclosed _]. rewrite Hclosed in Hh.
  pose proof (New_success _ _ _ _ _ _ _ _ _ _ _ HN)
    as (_ & l & -> & _ & _ & Hfp & _ & _ & Hw & _ & _).
  assert (Hfile : file l = Some defaultOutput).
  { revert HN. rewrite New_unfold. cbv zeta.
    destruct (_ || _); [discriminate|]. case_decide; [discriminate|].
    destruct (initializeRotation _ _) as [[w1 l1] [e1|]] eqn:HI; [discriminate|].
    apply initializeRotation_fds in HI as (_ & _ & _ & Hp1).
    rewrite openFileAndInitialize_empty by exact Hp1.
    intros [= _ Hmap].
    apply (f_equal (λ m : gmap string Logger, m !! name)) in Hmap.
    rewrite !lookup_insert_eq in Hmap. injection Hmap as <-. reflexivity. }
  exists l. split; [apply lookup_insert_eq|]. split; [exact Hfile|].
  split; [exact Hh|]. intros sev call Hr.
  rewrite (run_emit_in_range w' l sev call Hw Hr). cbv zeta.
  rewrite (emit_world_closed w' l sev _ defaultOutput Hfile Hh).
  unfold rotation_trigger. by rewrite decide_True.
Qed.

(** X8. With an empty file path [New] registers a logger on
    [defaultOutput] without opening any handle, but it does not bypass the
    slot selection: the paths [.0] and [.1] of the working directory are
    examined, and when both name files at or over the maximum the file [.0]
    is deleted.  Otherwise the file system is left alone. *)
Theorem New_empty_path (w : World) (Map : gmap string Logger) (name : string)
    (levels : list string) (level : LoghLevel) (flags checkLogSize maxLogSize : Z) :
  let l0 := New_logger "" levels level flags checkLogSize maxLogSize in
  0 <= level < len levels → filepath_Dir "" ∉ w_denied w →
  (both_full w l0 = true → ".0" ∉ w_denied w) →
  ∃ w' l,
    New w Map name "" levels level flags checkLogSize maxLogSize
      = (w', <[name := l]> (delete name Map), None) ∧
    file l = Some defaultOutput ∧ wired l ∧
    w_nodes w' = w_nodes w ∧ length (w_fds w') = length (w_fds w) ∧
    (both_full w l0 = false → w_dir w' = w_dir w) ∧
    (both_full w l0 = true →
     is_Some (file_at w ".0") ∧ file_at w' ".0" = None ∧
     ∀ q, q ≠ ".0" → w_dir w' !! q = w_dir w !! q).
Proof.
  intros l0 [Hlo Hhi] Hdir Hrm. rewrite New_unfold. cbv zeta. fold l0.
  pose proof (before_New_fs w Map name) as (Hd & Hn & Hden & Hlen & _).
  set (w0 := before_New w Map name) in *.
  rewrite (proj2 (Z.ltb_ge level 0)) by lia.
  rewrite (geb_false level (len levels)) by lia. cbn [orb].
  rewrite Hden, decide_False by exact Hdir.
  rewrite initializeRotation_selects, (both_full_ext w w0) by done.
  destruct (both_full w l0) eqn:Hfull.
  - destruct (both_full_slot0 w l0 Hfull) as (_ & c & Hc).
    change (slot_path l0 0) with ".0" in *.
    rewrite (Remove_existing w0 ".0" c) by (by rewrite (file_at_ext w w0)).
    rewrite Hden, decide_False by (by apply Hrm). cbv beta iota zeta.
    rewrite openFileAndInitialize_empty by reflexivity.
    eexists _, _. split; [reflexivity|].
    cbn [file set_levelMaxWidth initializeLoggers set_loggers set_file w_nodes w_fds].
    split; [reflexivity|]. split; [reflexivity|]. split; [exact Hn|].
    split; [exact Hlen|]. split; [discriminate|]. intros _.
    split; [by eexists|]. split.
    + unfold file_at, node_at. cbn [w_dir]. by rewrite lookup_delete_eq.
    + intros q Hq. cbn [w_dir]. rewrite lookup_delete_ne by done. by rewrite Hd.
  - cbv beta iota zeta. rewrite openFileAndInitialize_empty by reflexivity.
    eexists _, _. split; [reflexivity|].
    split; [reflexivity|]. split; [reflexivity|]. split; [exact Hn|].
    split; [exact Hlen|]. split; [done|discriminate].
Qed.

Lemma maxWidth_fold (levels : list string) :
  ∀ acc : Z,
    let m := fold_left (λ acc v, if strlen v >? acc then strlen v else acc)
                       levels acc in
    acc <= m ∧ (∀ v, v ∈ levels → strlen v <= m) ∧
    (m = acc ∨ ∃ v, v ∈ levels ∧ strlen v = m).
Proof.
  induction levels as [|x rest IH]; intros acc; cbn [fold_left].
  - split; [lia|]. split; [|by left]. intros v Hv. by apply elem_of_nil in Hv.
  - set (acc' := if strlen x >? acc then strlen x else acc).
    assert (Hacc : acc <= acc' ∧ strlen x <= acc' ∧ (acc' = acc ∨ acc' = strlen x)).
    { subst acc'. destruct (strlen x >? acc) eqn:E.
      - apply Z.gtb_lt in E. lia.
      - rewrite Z.gtb_ltb in E. apply Z.ltb_ge in E. lia. }
    destruct Hacc as (H1 & H2 & H3).
    destruct (IH acc') as (Hge & Hall & Hatt). cbv zeta in *.
    split; [lia|]. split.
    + intros v Hv. apply elem_of_cons in Hv as [->|Hv]; [lia|by apply Hall].
    + destruct Hatt as [Heq|(v & Hv & Heq)].
      * destruct H3 as [H3|H3]; [left; congruence|].
        right. exists x. split; [by left|congruence].
      * right. exists v. split; [by right|done].
Qed.

(** X9. The [levelMaxWidth] that a successful [New] stores is the length of
    a longest label: no label is longer, and one label has that length. *)
Theorem New_levelMaxWidth (w w' : World) (Map Map' : gmap string Logger)
    (name filePath : string) (levels : list string) (level : LoghLevel)
    (flags checkLogSize maxLogSize : Z) :
  New w Map name filePath levels level flags checkLogSize maxLogSize
    = (w', Map', None) →
  ∃ l, Map' !! name = Some l ∧
    (∀ v, v ∈ levels → strlen v <= levelMaxWidth l) ∧
    (∃ v, v ∈ levels ∧ strlen v = levelMaxWidth l).
Proof.
  intros HN.
  pose proof (New_success _ _ _ _ _ _ _ _ _ _ _ HN) as ([Hlo Hhi] & l & -> & _ & Hlvs & _).
  assert (Hmw : levelMaxWidth l = maxWidth levels).
  { revert HN. rewrite New_unfold. cbv zeta.
    destruct (_ || _); [discriminate|]. case_decide; [discriminate|].
    destruct (initializeRotation _ _) as [[w1 l1] [e1|]]; [discriminate|].
    destruct (openFileAndInitialize w1 l1) as [[w2 l2] [e2|]]; [discriminate|].
    intros [= _ Hmap].
    apply (f_equal (λ m : gmap string Logger, m !! name)) in Hmap.
    rewrite !lookup_insert_eq in Hmap. injection Hmap as <-.
    cbn [levelMaxWidth set_levelMaxWidth]. cbn in Hlvs. by rewrite Hlvs. }
  exists l. split; [apply lookup_insert_eq|]. rewrite Hmw.
  destruct (maxWidth_fold levels 0) as (_ & Hall & Hatt). split; [exact Hall|].
  destruct Hatt as [Hz|Hex]; [|exact Hex].
  destruct levels as [|x rest]; [unfold len in Hhi; cbn in Hhi; lia|].
  exists x. split; [by left|].
  fold (maxWidth (x :: rest)) in Hz, Hall.
  pose proof (Hall x (list_elem_of_here _ _)) as Hx. unfold strlen in *. lia.
Qed.

End NewFacts.

Lemma New_replaces_logger_witness :
  let r := @New plain boot two_out "a" "" DefaultLevels Warning 0 10 1000 in
  open_node r.1.1 defaultOutput = None ∧
  (∀ g, g ≠ defaultOutput → is_Some (w_fds boot !! g) →
        open_node r.1.1 g = open_node boot g) ∧
  (∀ other, other ≠ "a" → r.1.2 !! other = two_out !! other) ∧
  (∀ other l', other ≠ "a" → two_out !! other = Some l' →
               file l' = Some defaultOutput →
               r.1.2 !! other = Some l' ∧ file l' = Some defaultOutput ∧
               open_node r.1.1 defaultOutput = None).
Proof.
  apply (@New_replaces_logger plain boot two_out "a" "" DefaultLevels Warning
           0 10 1000 out_logger defaultOutput).
  - reflexivity.
  - reflexivity.
  - vm_compute. by eexists.
Defined.

Lemma replaced_stdout_logger_is_silent_witness :
  ∃ l, restarted.1.2 !! "a" = Some l ∧ file l = Some defaultOutput ∧
       open_node restarted.1.1 defaultOutput = None ∧
       ∀ sev (call : @emit_call plain), 0 <= sev < len (Logh.levels l) →
         run_emit restarted.1.1 (Some l) sev call = Done (restarted.1.1, Some l).
Proof.
  apply (@replaced_stdout_logger_is_silent plain boot restarted.1.1
           {["a" := out_logger]} restarted.1.2 "a" DefaultLevels Warning 0 10 1000
           out_logger).
  - reflexivity.
  - reflexivity.
  - vm_compute. by eexists.
  - vm_compute. reflexivity.
Defined.

Lemma New_empty_path_witness :
  let l0 := New_logger "" DefaultLevels Info 0 10 5 in
  ∃ w' l,
    @New plain dotfiles_world ∅ "app" "" DefaultLevels Info 0 10 5
      = (w', <["app" := l]> (delete "app" ∅), None) ∧
    file l = Some defaultOutput ∧ wired l ∧
    w_nodes w' = w_nodes dotfiles_world ∧
    length (w_fds w') = length (w_fds dotfiles_world) ∧
    (both_full dotfiles_world l0 = false → w_dir w' = w_dir dotfiles_world) ∧
    (both_full dotfiles_world l0 = true →
     is_Some (file_at dotfiles_world ".0") ∧ file_at w' ".0" = None ∧
     ∀ q, q ≠ ".0" → w_dir w' !! q = w_dir dotfiles_world !! q).
Proof.
  apply (@New_empty_path plain dotfiles_world ∅ "app" DefaultLevels Info 0 10 5).
  - vm_compute. split; [discriminate|reflexivity].
  - vm_compute. discriminate.
  - intros _. vm_compute. discriminate.
Defined.

Lemma New_levelMaxWidth_witness :
  ∃ l, started.1.2 !! "app" = Some l ∧
    (∀ v, v ∈ DefaultLevels → strlen v <= levelMaxWidth l) ∧
    (∃ v, v ∈ DefaultLevels ∧ strlen v = levelMaxWidth l).
Proof.
  apply (@New_levelMaxWidth plain boot started.1.1 ∅ started.1.2 "app" "app.log"
           DefaultLevels Info 0 10 1000).
  vm_compute. reflexivity.
Defined.

(* ===================================================================== *)
(** ** What an emit leaves alone                                          *)
(* ===================================================================== *)

Section EmitFrame.

Context `{Collaborators}.

Lemma Remove_frame (w w' : World) (p : string) (e : option error) :
  Remove w p = (w', e) →
  (∀ q, q ≠ p → w_dir w' !! q = w_dir w !! q) ∧
  w_nodes w' = w_nodes w ∧ w_fds w' = w_fds w ∧ w_denied w' = w_denied w.
Proof.
  unfold Remove. destruct (file_at w p); [case_decide|]; intros [= <- <-];
    split_and!; try done.
  intros q Hq. cbn [w_dir]. by rewrite lookup_delete_ne.
Qed.

Lemma OpenFile_frame (w w' : World) (p : string) (r : error + File) :
  OpenFile w p = (w', r) →
  (∀ q, q ≠ p → w_dir w' !! q = w_dir w !! q) ∧
  (∃ extra, w_fds w' = w_fds w ++ extra) ∧ w_denied w' = w_denied w.
Proof.
  unfold OpenFile. case_decide; [|destruct (node_at w p)]; intros [= <- <-];
    cbn [w_dir w_fds w_denied].
  - split; [done|]. split; [|done]. exists []. by rewrite app_nil_r.
  - split; [done|]. split; [by eexists|done].
  - split; [|split; [by eexists|done]]. intros q Hq. by rewrite lookup_insert_ne.
Qed.

Lemma open_node_app (w w' : World) (extra : list fdesc) (g : File) :
  w_fds w' = w_fds w ++ extra → is_Some (w_fds w !! g) →
  open_node w' g = open_node w g.
Proof.
  intros Hex [d Hd]. unfold open_node. rewrite Hex.
  rewrite lookup_app_l by (by eapply lookup_lt_Some). done.
Qed.

Lemma openFileAndInitialize_frame (w w' : World) (l l' : Logger) (e : option error) :
  openFileAndInitialize w l = (w', l', e) →
  (∀ q, q ≠ slot_path l (rotation l) → w_dir w' !! q = w_dir w !! q) ∧
  (∀ g, file l ≠ Some g → is_Some (w_fds w !! g) →
        open_node w' g = open_node w g) ∧
  w_denied w' = w_denied w.
Proof.
  unfold openFileAndInitialize.
  cbn [filePath file set_writesSinceCheckRotate]. case_decide as Hp.
  { by intros [= <- _ _]. }
  assert (Hopen : ∀ w1 l1 errors,
            (∀ g, file l ≠ Some g → is_Some (w_fds w !! g) →
                  open_node w1 g = open_node w g) →
            length (w_fds w1) = length (w_fds w) →
            w_dir w1 = w_dir w → w_denied w1 = w_denied w →
            slot_path l1 (rotation l1) = slot_path l (rotation l) →
            match OpenFile w1 (slot_path l1 (rotation l1)) with
            | (w2, inr f) => (w2, initializeLoggers (set_file l1 (Some f)), errors)
            | (w2, inl err) =>
                (w2, initializeLoggers (set_file l1 (Some defaultOutput)),
                 Some (Errorf_v "%v, opening log file, error:%v" [errors; Some err]))
            end = (w', l', e) →
            (∀ q, q ≠ slot_path l (rotation l) → w_dir w' !! q = w_dir w !! q) ∧
            (∀ g, file l ≠ Some g → is_Some (w_fds w !! g) →
                  open_node w' g = open_node w g) ∧
            w_denied w' = w_denied w).
  { intros w1 l1 errors Hg1 Hlen1 Hd1 Hden1 Hpath.
    destruct (OpenFile w1 _) as [w2 r] eqn:HO.
    apply OpenFile_frame in HO as (Hdir & [extra Hex] & Hden2).
    rewrite Hpath in Hdir.
    intros Hres. assert (w2 = w') as -> by (destruct r; congruence).
    split; [|split].
    - intros q Hq. rewrite Hdir by done. by rewrite Hd1.
    - intros g Hg Hv. rewrite <- (Hg1 g Hg Hv).
      apply (open_node_app w1 w' extra g Hex).
      destruct Hv as [d Hd]. apply lookup_lt_is_Some_2. rewrite Hlen1.
      by eapply lookup_lt_Some.
    - by rewrite Hden2. }
  destruct (file l) as [f|] eqn:Hf.
  - destruct (Shutdown w _) as [[w1 l1] e1] eqn:HS.
    apply Shutdown_effect in HS as (Hl1 & Hd1 & _ & Hden1 & Hlen1 & Hfile).
    cbn [file set_writesSinceCheckRotate] in Hfile. rewrite Hf in Hfile.
    destruct Hfile as (_ & Hoth & _).
    assert (Hpath : slot_path l1 (rotation l1) = slot_path l (rotation l))
      by (by rewrite Hl1).
    destruct e1 as [err|]; cbv beta iota zeta;
      apply Hopen; try done; intros g Hg _; apply Hoth; congruence.
  - cbv beta iota zeta. by apply Hopen.
Qed.

Lemma checkSizeAndRotate_frame (w w' : World) (l l' : Logger) (e : option error) :
  0 <= rotation l < maxRotations →
  checkSizeAndRotate w l = (w', l', e) →
  0 <= rotation l' < maxRotations ∧
  (∀ q, q ≠ slot_path l 0 → q ≠ slot_path l 1 → w_dir w' !! q = w_dir w !! q) ∧
  (∀ g, file l ≠ Some g → is_Some (w_fds w !! g) →
        open_node w' g = open_node w g).
Proof.
  intros Hr. unfold checkSizeAndRotate. case_decide as Hp.
  { by intros [= <- <- <-]. }
  destruct (Stat w _) as [err|size]; [by intros [= <- <- <-]|].
  destruct (size >? _); [|by intros [= <- <- <-]].
  cbv zeta. rewrite (next_rotation (set_writesSinceCheckRotate l 0)) by exact Hr.
  set (l1 := set_rotation (set_writesSinceCheckRotate l 0) _).
  assert (Hr1 : 0 <= rotation l1 < maxRotations).
  { subst l1. cbn [rotation set_rotation set_writesSinceCheckRotate].
    unfold maxRotations in *. lia. }
  assert (Hp1 : slot_path l1 (rotation l1) = slot_path l 0 ∨
                slot_path l1 (rotation l1) = slot_path l 1).
  { unfold maxRotations in Hr1.
    assert (rotation l1 = 0 ∨ rotation l1 = 1) as [E|E] by lia; rewrite E; auto. }
  destruct (Remove w _) as [w1 e1] eqn:HR.
  apply Remove_frame in HR as (Hdir1 & _ & Hfds1 & _).
  assert (Hopen : openFileAndInitialize w1 l1 = (w', l', e) →
    0 <= rotation l' < maxRotations ∧
    (∀ q, q ≠ slot_path l 0 → q ≠ slot_path l 1 → w_dir w' !! q = w_dir w !! q) ∧
    (∀ g, file l ≠ Some g → is_Some (w_fds w !! g) →
          open_node w' g = open_node w g)).
  { intros HO.
    pose proof (openFileAndInitialize_spec _ _ _ _ _ HO) as (_ & _ & _ & Hrot & _).
    apply openFileAndInitialize_frame in HO as (Hdir & Hg & _).
    split; [by rewrite Hrot|]. split.
    - intros q H0 H1. rewrite Hdir, Hdir1; [done| |];
        destruct Hp1 as [E|E]; rewrite E; done.
    - intros g Hg' Hv. rewrite Hg; [|done|by rewrite Hfds1].
      unfold open_node. by rewrite Hfds1. }
  destruct e1 as [err|]; [|exact Hopen].
  destruct (negb (IsNotExist err)); [|exact Hopen].
  intros [= <- <- <-]. split; [exact Hr1|]. split.
  - intros q H0 H1. apply Hdir1. destruct Hp1 as [E|E]; rewrite E; done.
  - intros g _ _. unfold open_node. by rewrite Hfds1.
Qed.

Lemma emit_world_other (w : World) (l : Logger) (sev : LoghLevel) (s : string)
    (f : File) (i : nat) :
  file l = Some f → open_node w f ≠ Some i →
  w_nodes (emit_world w l sev s) !! i = w_nodes w !! i.
Proof.
  intros Hf Hi. unfold emit_world. destruct (sev >=? level l); [|done].
  destruct (levels l !! Z.to_nat sev); [|done].
  unfold log_Output. cbn [lg_out]. rewrite Hf.
  destruct (open_node w f) as [j|] eqn:Ho.
  - apply (Write_other w f _ j i Ho). congruence.
  - unfold Write. by rewrite Ho.
Qed.

Lemma rotation_trigger_frame (w w' : World) (l l' : Logger) :
  0 <= rotation l < maxRotations →
  rotation_trigger w l = (w', l') →
  0 <= rotation l' < maxRotations ∧
  (∀ q, q ≠ slot_path l 0 → q ≠ slot_path l 1 → w_dir w' !! q = w_dir w !! q) ∧
  (∀ g, file l ≠ Some g → is_Some (w_fds w !! g) →
        open_node w' g = open_node w g).
Proof.
  intros Hr. unfold rotation_trigger. case_decide; [by intros [= <- <-]|].
  cbn [writesSinceCheckRotate checkLogSize set_writesSinceCheckRotate].
  destruct (_ >=? _); [|by intros [= <- <-]].
  destruct (checkSizeAndRotate w _) as [[w1 l1] e1] eqn:HC. intros [= <- <-].
  by apply checkSizeAndRotate_frame in HC.
Qed.

(** X10. An emit with a severity within the labels keeps to the logger's
    own files: the slot stays 0 or 1, no directory entry other than the two
    rotation paths changes, no inode other than the one behind the logger's
    handle changes content, and no other existing handle changes state.  So a
    file under any other path that is not the one being written to reads the
    same afterwards. *)
Theorem emit_keeps_to_own_files (w : World) (l : Logger) (sev : LoghLevel)
    (call : emit_call) (f : File) :
  wired l → 0 <= sev < len (levels l) →
  0 <= rotation l < maxRotations → file l = Some f →
  ∃ w' l',
    run_emit w (Some l) sev call = Done (w', Some l') ∧
    0 <= rotation l' < maxRotations ∧
    (∀ q, q ≠ slot_path l 0 → q ≠ slot_path l 1 → w_dir w' !! q = w_dir w !! q) ∧
    (∀ i c, open_node w f ≠ Some i → w_nodes w !! i = Some c →
            w_nodes w' !! i = Some c) ∧
    (∀ g, g ≠ f → is_Some (w_fds w !! g) → open_node w' g = open_node w g) ∧
    (∀ q c, q ≠ slot_path l 0 → q ≠ slot_path l 1 →
            file_at w q = Some c → node_at w q ≠ open_node w f →
            file_at w' q = Some c).
Proof.
  intros Hw Hr Hrot Hf.
  rewrite (run_emit_in_range w l sev call Hw Hr). cbv zeta.
  pose proof (emit_world_frame w l sev (message call)) as (Hd1 & Hf1 & _ & _).
  set (w1 := emit_world w l sev (message call)) in *.
  destruct (rotation_trigger w1 l) as [w' l'] eqn:HT. cbn [fst snd].
  pose proof (rotation_trigger_spec _ _ _ _ HT) as (Hg & _).
  apply rotation_trigger_frame in HT as (Hrot' & Hdir & Hfds); [|exact Hrot].
  assert (Hnodes : ∀ i c, open_node w f ≠ Some i → w_nodes w !! i = Some c →
                          w_nodes w' !! i = Some c).
  { intros i c Hi Hc. apply (grown_lookup _ _ _ _ Hg).
    subst w1. by rewrite (emit_world_other w l sev _ f i Hf Hi). }
  assert (Hdir' : ∀ q, q ≠ slot_path l 0 → q ≠ slot_path l 1 →
                       w_dir w' !! q = w_dir w !! q).
  { intros q H0 H1. rewrite Hdir by done. by rewrite Hd1. }
  exists w', l'. split; [reflexivity|]. split; [exact Hrot'|].
  split; [exact Hdir'|]. split; [exact Hnodes|]. split.
  - intros g Hg' Hv. rewrite Hfds; [|congruence|by rewrite Hf1].
    unfold open_node. by rewrite Hf1.
  - intros q c H0 H1 Hc Hne. apply file_at_Some in Hc as (i & Hni & Hi).
    rewrite Hni in Hne.
    assert (Hi' : w_nodes w' !! i = Some c) by (apply Hnodes; congruence).
    apply file_at_Some. exists i. split; [|exact Hi'].
    apply node_at_Some in Hni as [Hdi _]. apply node_at_Some.
    split; [by rewrite Hdir'|]. by eapply lookup_lt_Some.
Qed.

End EmitFrame.

Lemma emit_keeps_to_own_files_witness :
  ∃ w' l',
    run_emit demo_world (Some tight_logger) Warning demo_call = Done (w', Some l') ∧
    0 <= rotation l' < maxRotations ∧
    (∀ q, q ≠ slot_path tight_logger 0 → q ≠ slot_path tight_logger 1 →
          w_dir w' !! q = w_dir demo_world !! q) ∧
    (∀ i c, open_node demo_world 1%nat ≠ Some i → w_nodes demo_world !! i = Some c →
            w_nodes w' !! i = Some c) ∧
    (∀ g, g ≠ 1%nat → is_Some (w_fds demo_world !! g) →
          open_node w' g = open_node demo_world g) ∧
    (∀ q c, q ≠ slot_path tight_logger 0 → q ≠ slot_path tight_logger 1 →
            file_at demo_world q = Some c →
            node_at demo_world q ≠ open_node demo_world 1%nat →
            file_at w' q = Some c).
Proof.
  apply (emit_keeps_to_own_files demo_world tight_logger Warning demo_call 1%nat).
  - reflexivity.
  - vm_compute. split; [discriminate|reflexivity].
  - vm_compute. split; [discriminate|reflexivity].
  - reflexivity.
Defined.

(* ===================================================================== *)
(** ** The check interval over a run, and rotations that fail             *)
(* ===================================================================== *)

Section RunsAndFailures.

Context `{Collaborators}.

(** The state after a run: no panic, the invariants of a running logger,
    and the counter as a function of the number of calls. *)
Lemma run_emits_state (calls : list (LoghLevel * emit_call)) :
  ∀ (w : World) (l : Logger),
    wired l → filePath l ≠ "" → in_int (checkLogSize l) →
    0 <= writesSinceCheckRotate l < checkLogSize l →
    Forall (λ sc, 0 <= sc.1 < len (levels l)) calls →
    ∃ w' l',
      run_emits w l calls = Done (w', l') ∧ wired l' ∧ same_config l l' ∧
      0 <= writesSinceCheckRotate l' < checkLogSize l' ∧
      writesSinceCheckRotate l' =
        (writesSinceCheckRotate l + len calls) mod checkLogSize l.
Proof.
  induction calls as [|[sev c] rest IH]; intros w l Hw Hp Hint Hinv Hall.
  - exists w, l. split; [reflexivity|]. split; [done|].
    split; [apply same_config_refl|]. split; [done|].
    unfold len. cbn [length]. rewrite Z.add_0_r. by rewrite Z.mod_small.
  - apply Forall_cons in Hall as [Hsev Hrest]. cbn [fst] in Hsev.
    cbn [run_emits]. rewrite (run_emit_in_range w l sev c Hw Hsev). cbv zeta.
    destruct (rotation_trigger _ l) as [w1 l1] eqn:HT. cbn [fst snd].
    pose proof (rotation_trigger_spec _ _ _ _ HT) as (_ & Hw1 & Hc1 & _).
    pose proof (rotation_trigger_counter _ _ _ _ HT Hp) as (Hcnt & _ & Hstep).
    destruct (Hstep Hint Hinv) as [Hwrap Hinv1].
    pose proof Hc1 as (Hci & _ & _ & Hlvs & Hfp & _).
    destruct (IH w1 l1) as (w' & l' & HR & Hw' & Hc' & Hinv' & Hmod).
    + auto.
    + by rewrite Hfp.
    + by rewrite Hci.
    + exact Hinv1.
    + by rewrite Hlvs.
    + exists w', l'. split; [exact HR|]. split; [exact Hw'|].
      split; [by eapply same_config_trans|]. split; [exact Hinv'|].
      rewrite Hmod, Hci, Hcnt, Hwrap.
      unfold len. cbn [length]. rewrite Nat2Z.inj_succ.
      set (k := checkLogSize l) in *. set (c0 := writesSinceCheckRotate l) in *.
      set (n := Z.of_nat (length rest)).
      assert (Hone : (if c0 + 1 >=? k then 0 else c0 + 1) = (c0 + 1) mod k).
      { destruct (c0 + 1 >=? k) eqn:E.
        - rewrite Z.geb_leb in E. apply Z.leb_le in E.
          assert (c0 + 1 = k) as -> by lia. by rewrite Z.mod_same by lia.
        - rewrite Z.geb_leb in E. apply Z.leb_gt in E.
          by rewrite Z.mod_small by lia. }
      rewrite Hone, Z.add_mod_idemp_l by lia. f_equal. lia.
Qed.

(** X11. Over any run of emits with severities within the labels, on a
    wired file-backed logger whose counter is below a positive check
    interval, no call panics and the counter counts the calls modulo the
    interval: after [n] calls it is [(counter + n) mod checkLogSize].  The
    call that follows runs the size check exactly when
    [(counter + n + 1) mod checkLogSize = 0]: then its result is that of
    [checkSizeAndRotate] after the write step; otherwise the call does the
    write step and increments the counter, and nothing else. *)
Theorem counter_counts_modulo_interval (calls : list (LoghLevel * emit_call))
    (w : World) (l : Logger) (sev : LoghLevel) (c : emit_call) :
  wired l → filePath l ≠ "" → in_int (checkLogSize l) →
  0 <= writesSinceCheckRotate l < checkLogSize l →
  Forall (λ sc, 0 <= sc.1 < len (levels l)) calls →
  0 <= sev < len (levels l) →
  ∃ w' l',
    run_emits w l calls = Done (w', l') ∧
    writesSinceCheckRotate l' =
      (writesSinceCheckRotate l + len calls) mod checkLogSize l ∧
    let w1 := emit_world w' l' sev (message c) in
    let l1 := set_writesSinceCheckRotate l' (writesSinceCheckRotate l' + 1) in
    run_emit w' (Some l') sev c =
      if (writesSinceCheckRotate l + len calls + 1) mod checkLogSize l =? 0
      then (let '(w2, l2, _) := checkSizeAndRotate w1 l1 in Done (w2, Some l2))
      else Done (w1, Some l1).
Proof.
  intros Hw Hp Hint Hinv Hall Hsev.
  destruct (run_emits_state calls w l Hw Hp Hint Hinv Hall)
    as (w' & l' & HR & Hw' & Hc' & Hinv' & Hmod).
  destruct Hc' as (Hci & _ & _ & Hlvs & Hfp & _).
  exists w', l'. split; [exact HR|]. split; [exact Hmod|]. cbv zeta.
  rewrite <- Hlvs in Hsev.
  rewrite (run_emit_in_range w' l' sev c Hw' Hsev). cbv zeta.
  set (w1 := emit_world w' l' sev (message c)).
  unfold rotation_trigger. rewrite decide_False by (by rewrite Hfp).
  cbn [writesSinceCheckRotate checkLogSize set_writesSinceCheckRotate].
  assert (Hwrap : wrap64 (writesSinceCheckRotate l' + 1)
                  = writesSinceCheckRotate l' + 1).
  { apply wrap64_small. unfold in_int, min_int, max_int in *. lia. }
  rewrite Hwrap.
  assert (Hcond : (writesSinceCheckRotate l' + 1 >=? checkLogSize l')
                  = ((writesSinceCheckRotate l + len calls + 1)
                       mod checkLogSize l =? 0)).
  { rewrite <- (Z.add_mod_idemp_l (_ + _) 1) by lia. rewrite <- Hmod.
    rewrite Hci in *.
    set (k := checkLogSize l) in *. set (c1 := writesSinceCheckRotate l') in *.
    destruct (c1 + 1 >=? k) eqn:E.
    - rewrite Z.geb_leb in E. apply Z.leb_le in E.
      assert (c1 + 1 = k) as -> by lia. rewrite Z.mod_same by lia. reflexivity.
    - rewrite Z.geb_leb in E. apply Z.leb_gt in E.
      rewrite Z.mod_small by lia. symmetry. apply Z.eqb_neq. lia. }
  rewrite Hcond. destruct (_ =? 0); [|reflexivity].
  by destruct (checkSizeAndRotate w1 _) as [[w2 l2] e2].
Qed.

(** A size check on a slot whose file does not exist fails at [Stat] and
    changes nothing but the counter. *)
Lemma checkSizeAndRotate_missing (w : World) (l : Logger) :
  filePath l ≠ "" → file_at w (slot_path l (rotation l)) = None →
  checkSizeAndRotate w l =
    (w, set_writesSinceCheckRotate l 0,
     Some (PathError "stat" (slot_path l (rotation l)) ENOENT)).
Proof.
  intros Hp Hnone. unfold checkSizeAndRotate. rewrite decide_False by exact Hp.
  change (slot_path (set_writesSinceCheckRotate l 0)
            (rotation (set_writesSinceCheckRotate l 0)))
    with (slot_path l (rotation l)).
  unfold Stat. by rewrite Hnone.
Qed.

(** X12. When the file of the next slot exists and may not be removed, a
    due rotation stops after the slot index has advanced: the world is
    unchanged, the logger keeps its handle and per-level loggers and goes on
    writing to the old file, while its slot index names the other file; the
    remove error is returned. *)
Theorem rotation_remove_failure (w : World) (l : Logger) (c c' : string) :
  filePath l ≠ "" → 0 <= rotation l < maxRotations →
  file_at w (slot_path l (rotation l)) = Some c → maxLogSize l < strlen c →
  file_at w (slot_path l (1 - rotation l)) = Some c' →
  slot_path l (1 - rotation l) ∈ w_denied w →
  ∃ l',
    checkSizeAndRotate w l =
      (w, l', Some (PathError "remove" (slot_path l (1 - rotation l)) EACCES)) ∧
    rotation l' = 1 - rotation l ∧ file l' = file l ∧ loggers l' = loggers l ∧
    writesSinceCheckRotate l' = 0.
Proof.
  intros Hp Hr Hc Hgt Hc' Hden. unfold checkSizeAndRotate.
  rewrite decide_False by exact Hp.
  change (slot_path (set_writesSinceCheckRotate l 0)
            (rotation (set_writesSinceCheckRotate l 0)))
    with (slot_path l (rotation l)).
  unfold Stat. rewrite Hc.
  change (maxLogSize (set_writesSinceCheckRotate l 0)) with (maxLogSize l).
  rewrite (proj2 (Z.gtb_lt (strlen c) (maxLogSize l))) by lia.
  cbv zeta. rewrite (next_rotation (set_writesSinceCheckRotate l 0)) by exact Hr.
  set (l1 := set_rotation (set_writesSinceCheckRotate l 0) _).
  change (slot_path l1 (rotation l1)) with (slot_path l (1 - rotation l)).
  rewrite (Remove_existing w _ c' Hc'), decide_True by exact Hden.
  cbn [IsNotExist negb]. by exists l1.
Qed.

(** X13. When the next slot has no file and may not be created, a due
    rotation closes the handle in use and falls back: the logger is left
    wired to [defaultOutput] with the slot advanced, the open error is
    returned, and directory, file contents and all other handles are as
    before. *)
Theorem rotation_open_failure (w : World) (l : Logger) (f : File) (node : nat)
    (c : string) :
  filePath l ≠ "" → 0 <= rotation l < maxRotations →
  file l = Some f → open_node w f = Some node →
  file_at w (slot_path l (rotation l)) = Some c → maxLogSize l < strlen c →
  file_at w (slot_path l (1 - rotation l)) = None →
  slot_path l (1 - rotation l) ∈ w_denied w →
  ∃ w' l' err,
    checkSizeAndRotate w l = (w', l', Some err) ∧
    file l' = Some defaultOutput ∧ wired l' ∧ rotation l' = 1 - rotation l ∧
    open_node w' f = None ∧
    w_dir w' = w_dir w ∧ w_nodes w' = w_nodes w ∧
    (∀ g, g ≠ f → open_node w' g = open_node w g).
Proof.
  intros Hp Hr Hf Ho Hc Hgt Hnone Hden. unfold checkSizeAndRotate.
  rewrite decide_False by exact Hp.
  change (slot_path (set_writesSinceCheckRotate l 0)
            (rotation (set_writesSinceCheckRotate l 0)))
    with (slot_path l (rotation l)).
  unfold Stat. rewrite Hc.
  change (maxLogSize (set_writesSinceCheckRotate l 0)) with (maxLogSize l).
  rewrite (proj2 (Z.gtb_lt (strlen c) (maxLogSize l))) by lia.
  cbv zeta. rewrite (next_rotation (set_writesSinceCheckRotate l 0)) by exact Hr.
  set (l1 := set_rotation (set_writesSinceCheckRotate l 0) _).
  change (slot_path l1 (rotation l1)) with (slot_path l (1 - rotation l)).
  unfold Remove. rewrite Hnone. cbn [IsNotExist negb].
  unfold openFileAndInitialize. subst l1.
  cbn [filePath file set_writesSinceCheckRotate set_rotation].
  rewrite decide_False by exact Hp. rewrite Hf.
  destruct (Shutdown w _) as [[w1 l2] e1] eqn:HS.
  apply Shutdown_effect in HS as (Hl2 & Hd1 & Hn1 & Hden1 & _ & Hfile).
  cbn [file set_writesSinceCheckRotate set_rotation] in Hfile. rewrite Hf in Hfile.
  destruct Hfile as (Hcl & Hoth & _).
  assert (Hpath : slot_path l2 (rotation l2) = slot_path l (1 - rotation l))
    by (by rewrite Hl2).
  assert (HO : OpenFile w1 (slot_path l2 (rotation l2))
               = (w1, inl (PathError "open" (slot_path l2 (rotation l2)) EACCES))).
  { unfold OpenFile. rewrite decide_True; [done|]. by rewrite Hpath, Hden1. }
  destruct e1 as [err|]; cbv beta iota zeta; rewrite HO;
    eexists w1, _, _; (split; [reflexivity|]);
    rewrite Hl2; by split_and!.
Qed.

(** X14. A fallback is permanent while the file of the current slot is
    missing: over any run of emits with severities within the labels every
    size check fails at [Stat], so the logger keeps its handle and its slot
    and no file is ever opened or created. *)
Theorem fallback_is_permanent (calls : list (LoghLevel * emit_call)) :
  ∀ (w : World) (l : Logger),
    wired l → filePath l ≠ "" →
    file_at w (slot_path l (rotation l)) = None →
    Forall (λ sc, 0 <= sc.1 < len (levels l)) calls →
    ∃ w' l',
      run_emits w l calls = Done (w', l') ∧
      file l' = file l ∧ rotation l' = rotation l ∧ loggers l' = loggers l ∧
      w_dir w' = w_dir w ∧ w_fds w' = w_fds w ∧
      length (w_nodes w') = length (w_nodes w).
Proof.
  induction calls as [|[sev c] rest IH]; intros w l Hw Hp Hnone Hall.
  - exists w, l. by split_and!.
  - apply Forall_cons in Hall as [Hsev Hrest]. cbn [fst] in Hsev.
    cbn [run_emits]. rewrite (run_emit_in_range w l sev c Hw Hsev). cbv zeta.
    pose proof (emit_world_frame w l sev (message c)) as (Hd1 & Hf1 & _ & Hlen1).
    set (w1 := emit_world w l sev (message c)) in *.
    assert (Hnone1 : file_at w1 (slot_path l (rotation l)) = None).
    { apply file_at_None. apply file_at_None in Hnone.
      revert Hnone. unfold node_at. by rewrite Hd1, Hlen1. }
    assert (Hstep : ∃ k, rotation_trigger w1 l = (w1, set_writesSinceCheckRotate l k)).
    { unfold rotation_trigger. rewrite decide_False by exact Hp.
      cbn [writesSinceCheckRotate checkLogSize set_writesSinceCheckRotate].
      destruct (_ >=? _); [|by eexists].
      rewrite checkSizeAndRotate_missing by done. by eexists. }
    destruct Hstep as [k ->]. cbn [fst snd].
    destruct (IH w1 (set_writesSinceCheckRotate l k))
      as (w' & l' & HR & Hfl & Hrot & Hlg & Hd & Hf & Hlen); try done.
    exists w', l'. split; [exact HR|]. split_and!; try done; congruence.
Qed.

End RunsAndFailures.

Lemma five_levels_in_range (l : Logger) :
  levels l = DefaultLevels →
  Forall (λ sc : LoghLevel * @emit_call plain, 0 <= sc.1 < len (levels l)) five_levels.
Proof.
  intros ->. unfold five_levels.
  repeat (constructor; [vm_compute; split; [discriminate|reflexivity]|]).
  constructor.
Qed.

Lemma two_calls_in_range (l : Logger) :
  levels l = DefaultLevels →
  Forall (λ sc : LoghLevel * @emit_call plain, 0 <= sc.1 < len (levels l)) two_calls.
Proof.
  intros ->. unfold two_calls.
  repeat (constructor; [vm_compute; split; [discriminate|reflexivity]|]).
  constructor.
Qed.

Lemma counter_counts_modulo_interval_witness :
  ∃ w' l',
    run_emits demo_world paced_logger two_calls = Done (w', l') ∧
    writesSinceCheckRotate l' =
      (writesSinceCheckRotate paced_logger + len two_calls)
        mod checkLogSize paced_logger ∧
    let w1 := @emit_world plain w' l' Warning (message demo_call) in
    let l1 := set_writesSinceCheckRotate l' (writesSinceCheckRotate l' + 1) in
    run_emit w' (Some l') Warning demo_call =
      if (writesSinceCheckRotate paced_logger + len two_calls + 1)
           mod checkLogSize paced_logger =? 0
      then (let '(w2, l2, _) := checkSizeAndRotate w1 l1 in Done (w2, Some l2))
      else Done (w1, Some l1).
Proof.
  apply (counter_counts_modulo_interval two_calls demo_world paced_logger
           Warning demo_call).
  - reflexivity.
  - discriminate.
  - vm_compute. split; discriminate.
  - vm_compute. split; [discriminate|reflexivity].
  - by apply two_calls_in_range.
  - vm_compute. split; [discriminate|reflexivity].
Defined.

Lemma rotation_remove_failure_witness :
  ∃ l',
    checkSizeAndRotate stuck_world tight_logger =
      (stuck_world, l',
       Some (PathError "remove" (slot_path tight_logger (1 - rotation tight_logger))
                       EACCES)) ∧
    rotation l' = 1 - rotation tight_logger ∧ file l' = file tight_logger ∧
    loggers l' = loggers tight_logger ∧ writesSinceCheckRotate l' = 0.
Proof.
  apply (rotation_remove_failure stuck_world tight_logger
           ("info: started" +:+ nl) "old").
  - discriminate.
  - vm_compute. split; [discriminate|reflexivity].
  - vm_compute. reflexivity.
  - vm_compute. reflexivity.
  - vm_compute. reflexivity.
  - vm_compute. reflexivity.
Defined.

Lemma rotation_open_failure_witness :
  ∃ w' l' err,
    checkSizeAndRotate locked_next_world tight_logger = (w', l', Some err) ∧
    file l' = Some defaultOutput ∧ wired l' ∧
    rotation l' = 1 - rotation tight_logger ∧
    open_node w' 1%nat = None ∧
    w_dir w' = w_dir locked_next_world ∧ w_nodes w' = w_nodes locked_next_world ∧
    (∀ g, g ≠ 1%nat → open_node w' g = open_node locked_next_world g).
Proof.
  apply (rotation_open_failure locked_next_world tight_logger 1%nat 1%nat
           ("info: started" +:+ nl)).
  - discriminate.
  - vm_compute. split; [discriminate|reflexivity].
  - reflexivity.
  - reflexivity.
  - vm_compute. reflexivity.
  - vm_compute. reflexivity.
  - vm_compute. reflexivity.
  - vm_compute. reflexivity.
Defined.

Lemma fallback_is_permanent_witness :
  ∃ w' l',
    run_emits locked_next_world fallen_logger five_levels = Done (w', l') ∧
    file l' = file fallen_logger ∧ rotation l' = rotation fallen_logger ∧
    loggers l' = loggers fallen_logger ∧
    w_dir w' = w_dir locked_next_world ∧ w_fds w' = w_fds locked_next_world ∧
    length (w_nodes w') = length (w_nodes locked_next_world).
Proof.
  apply (fallback_is_permanent five_levels locked_next_world fallen_logger).
  - reflexivity.
  - discriminate.
  - vm_compute. reflexivity.
  - by apply five_levels_in_range.
Defined.

Lemma New_running_witness :
  ∃ l f node c,
    started.1.2 !! "app" = Some l ∧ wired l ∧ writesSinceCheckRotate l = 0 ∧
    0 <= Logh.level l < len (Logh.levels l) ∧
    0 <= rotation l < maxRotations ∧
    file l = Some f ∧ open_node started.1.1 f = Some node ∧
    node_at started.1.1 (slot_path l (rotation l)) = Some node ∧
    w_nodes started.1.1 !! node = Some c ∧
    file_at started.1.1 (slot_path l (rotation l)) = Some c.
Proof.
  apply (@New_running plain boot started.1.1 ∅ started.1.2 "app" "app.log"
           DefaultLevels Info 0 10 1000).
  - discriminate.
  - vm_compute. reflexivity.
Defined.

Lemma run_emits_counter_witness :
  ∃ w' l',
    run_emits demo_world demo_logger five_levels = Done (w', l') ∧ wired l' ∧
    same_config demo_logger l' ∧
    0 <= writesSinceCheckRotate l' < checkLogSize l'.
Proof.
  apply (run_emits_counter five_levels demo_world demo_logger).
  - reflexivity.
  - discriminate.
  - vm_compute. split; discriminate.
  - vm_compute. split; [discriminate|reflexivity].
  - by apply five_levels_in_range.
Defined.
